(** * classical_logic: the lexer and recursive-descent parser of
    [classical_logic/parsing.py], and the formula model it builds.

    The development follows the layout of the Python module: messages,
    lexical analysis, the [_Parser] class, the API ([prop], [props]).
    The formula model of [classical_logic/core.py] (rendering, evaluation,
    operator protocol) is described after the parser.

    Text.  A Python [str] is a sequence of code points.  A text is modelled
    as a [string] whose characters are the code points below 256 (the
    Latin-1 block), one [ascii] per code point; [str.isalpha] and
    [str.isalnum] are the Unicode predicates restricted to that block.

    Calls.  The methods of the parser call each other recursively; the model
    gives them an explicit call depth ([fuel]) and proves that a depth linear
    in the number of tokens is always enough.  The recursion limit of the
    interpreter is not modelled. *)

From Stdlib Require Import Ascii NArith Lia.
From stdpp Require Import base option list strings gmap.

Local Open Scope stdpp_scope.

(** ** Exceptions and outcomes *)

(** The exceptions the module can surface. *)
Inductive exn :=
| ValueError (msg : string)
| StopIteration
| RuntimeError (msg : string)
| TypeError.

(** What a call does: it returns, it raises, or (for the functions that take
    a recursion budget) the budget ran out before either happened. *)
Inductive outcome (A : Type) :=
| Return (a : A)
| Raise (e : exn)
| OutOfFuel.
Arguments Return {A} a.
Arguments Raise {A} e.
Arguments OutOfFuel {A}.

Definition outcome_bind {A B} (f : A -> outcome B) (m : outcome A) : outcome B :=
  match m with
  | Return a => f a
  | Raise e => Raise e
  | OutOfFuel => OutOfFuel
  end.

#[global] Instance outcome_mbind : MBind outcome := @outcome_bind.
#[global] Instance outcome_mret : MRet outcome := @Return.

(** [settled o]: the call came to an end, by a value or by an exception. *)
Definition settled {A} (o : outcome A) : bool :=
  match o with
  | OutOfFuel => false
  | _ => true
  end.

(** ** Formulas *)

(** The node kinds [parsing.py] imports from [core]: a named leaf
    ([Predicate]; the tests call it [Atomic]) and the five connectives. *)
Inductive Proposition :=
| Predicate (name : string)
| Not (inner : Proposition)
| And (l r : Proposition)
| Or (l r : Proposition)
| Implies (l r : Proposition)
| Iff (l r : Proposition).

(** ** Messages *)

Definition _UNEXP_END_OF_STR : string := "unexpected end of string".

Definition _unexp_char (c : ascii) : string :=
  "unexpected character '" +:+ String c "'".

Definition _unexp_token (token_value : string) : string :=
  "unexpected token '" +:+ token_value +:+ "'".

(** ** Characters *)

Definition code (c : ascii) : N := N_of_ascii c.

Definition between (lo hi : N) (c : ascii) : bool :=
  ((lo <=? code c) && (code c <=? hi))%N.

(** [str.isalpha] on one code point below 256: general category L*.
    Besides A-Z and a-z these are U+00AA, U+00B5, U+00BA and the letters of
    U+00C0..U+00FF (all but the two signs U+00D7 and U+00F7). *)
Definition isalpha (c : ascii) : bool :=
  (between 65 90 c || between 97 122 c
   || (code c =? 170) || (code c =? 181) || (code c =? 186)
   || between 192 214 c || between 216 246 c || between 248 255 c)%N.

(** [str.isalnum]: [isalpha], or a decimal, digit or numeric character.
    Below 256: 0-9, the superscripts U+00B2, U+00B3, U+00B9 and the
    fractions U+00BC..U+00BE. *)
Definition isalnum (c : ascii) : bool :=
  (isalpha c || between 48 57 c
   || (code c =? 178) || (code c =? 179) || (code c =? 185)
   || between 188 190 c)%N.

(** [c in s] for a one-character [c]. *)
Fixpoint char_in (c : ascii) (s : string) : bool :=
  match s with
  | EmptyString => false
  | String d s' => Ascii.eqb c d || char_in c s'
  end.

(** The literal [" \t\f\r\n"]. *)
Definition WHITESPACE : string :=
  String " " (String "009" (String "012" (String "013" (String "010" "")))).

(** ** Lexical analysis *)

Inductive _TokenType :=
| IDENT | NOT | AND | OR | IMPLIES | IFF | LPARENS | RPARENS.

#[global] Instance _TokenType_eq_dec : EqDecision _TokenType.
Proof. solve_decision. Defined.

Definition token : Type := _TokenType * string.

(** [_lex_accept it expected]: take the next character of [it]; the
    iterator moves past it whether or not it is the expected one. *)
Definition _lex_accept (it : string) (expected : ascii) : outcome string :=
  match it with
  | EmptyString => Raise (ValueError _UNEXP_END_OF_STR)
  | String c it' =>
      if Ascii.eqb c expected then Return it'
      else Raise (ValueError (_unexp_char c))
  end.

(** The inner [while] of the identifier branch: the characters appended to
    [parts], and the text from the character that stopped the loop on. *)
Fixpoint ident_tail (s : string) : string * string :=
  match s with
  | EmptyString => (EmptyString, EmptyString)
  | String c s' =>
      if isalnum c || Ascii.eqb c "_" then
        let '(parts, rest) := ident_tail s' in (String c parts, rest)
      else (EmptyString, s)
  end.

(** The generator [_lex], resumed on the text that is still to be read (the
    pending character [c] first): it runs to its next [yield] (the token and
    the text left), to its [return] ([None]), or to a [raise]. *)
Fixpoint _lex (text : string) : outcome (option (token * string)) :=
  match text with
  | EmptyString => Return None
  | String c it =>
      if Ascii.eqb c "~" then Return (Some ((NOT, "~"), it))
      else if Ascii.eqb c "&" then Return (Some ((AND, "&"), it))
      else if Ascii.eqb c "|" then Return (Some ((OR, "|"), it))
      else if Ascii.eqb c "-" then
        it1 ← _lex_accept it ">";
        Return (Some ((IMPLIES, "->"), it1))
      else if Ascii.eqb c "<" then
        it1 ← _lex_accept it "-";
        it2 ← _lex_accept it1 ">";
        Return (Some ((IFF, "<->"), it2))
      else if Ascii.eqb c "(" then Return (Some ((LPARENS, "("), it))
      else if Ascii.eqb c ")" then Return (Some ((RPARENS, ")"), it))
      else if char_in c WHITESPACE then _lex it
      else if isalpha c || Ascii.eqb c "_" then
        let '(parts, rest) := ident_tail it in
        Return (Some ((IDENT, String c parts), rest))
      else Raise (ValueError (_unexp_char c))
  end.

(** ** Parsing *)

(** The parser object: the token generator (the text it has not read) and
    the current token. *)
Record _Parser := mk_Parser {
  _token_stream : string;
  _current_token_type : option _TokenType;
  _current_token_value : string
}.

(** [_Parser.__init__]: [next] without a default. *)
Definition _Parser_init (text : string) : outcome _Parser :=
  ev ← _lex text;
  match ev with
  | Some ((ty, v), rest) => Return (mk_Parser rest (Some ty) v)
  | None => Raise StopIteration
  end.

(** [_Parser._advance]: [next] with the default [(None, "")]. *)
Definition _advance (self : _Parser) : outcome _Parser :=
  ev ← _lex (_token_stream self);
  match ev with
  | Some ((ty, v), rest) => Return (mk_Parser rest (Some ty) v)
  | None => Return (mk_Parser "" None "")
  end.

(** [self._current_token_type is ty] *)
Definition at_token (ty : _TokenType) (self : _Parser) : bool :=
  bool_decide (_current_token_type self = Some ty).

(** The two [raise] statements that end [unit]. *)
Definition unit_raise {A} (self : _Parser) : outcome A :=
  match _current_token_type self with
  | None => Raise (ValueError _UNEXP_END_OF_STR)
  | Some _ => Raise (ValueError (_unexp_token (_current_token_value self)))
  end.

(** The methods of [_Parser].  Each call spends one unit of [fuel], which
    bounds the depth of the calls; the [while] loops of [disj] and [conj]
    are the functions [disj_while] and [conj_while]. *)
Fixpoint bic (fuel : nat) (self : _Parser) : outcome (Proposition * _Parser) :=
  match fuel with
  | O => OutOfFuel
  | S fuel =>
      '(lhs, self) ← cond fuel self;
      if at_token IFF self then
        self ← _advance self;
        '(rhs, self) ← bic fuel self;
        Return (Iff lhs rhs, self)
      else Return (lhs, self)
  end
with cond (fuel : nat) (self : _Parser) : outcome (Proposition * _Parser) :=
  match fuel with
  | O => OutOfFuel
  | S fuel =>
      '(lhs, self) ← disj fuel self;
      if at_token IMPLIES self then
        self ← _advance self;
        '(rhs, self) ← cond fuel self;
        Return (Implies lhs rhs, self)
      else Return (lhs, self)
  end
with disj (fuel : nat) (self : _Parser) : outcome (Proposition * _Parser) :=
  match fuel with
  | O => OutOfFuel
  | S fuel =>
      '(current_prop, self) ← conj fuel self;
      disj_while fuel current_prop self
  end
with disj_while (fuel : nat) (current_prop : Proposition) (self : _Parser)
    : outcome (Proposition * _Parser) :=
  match fuel with
  | O => OutOfFuel
  | S fuel =>
      if at_token OR self then
        self ← _advance self;
        '(rhs, self) ← conj fuel self;
        disj_while fuel (Or current_prop rhs) self
      else Return (current_prop, self)
  end
with conj (fuel : nat) (self : _Parser) : outcome (Proposition * _Parser) :=
  match fuel with
  | O => OutOfFuel
  | S fuel =>
      '(current_prop, self) ← neg fuel self;
      conj_while fuel current_prop self
  end
with conj_while (fuel : nat) (current_prop : Proposition) (self : _Parser)
    : outcome (Proposition * _Parser) :=
  match fuel with
  | O => OutOfFuel
  | S fuel =>
      if at_token AND self then
        self ← _advance self;
        '(rhs, self) ← neg fuel self;
        conj_while fuel (And current_prop rhs) self
      else Return (current_prop, self)
  end
with neg (fuel : nat) (self : _Parser) : outcome (Proposition * _Parser) :=
  match fuel with
  | O => OutOfFuel
  | S fuel =>
      if at_token NOT self then
        self ← _advance self;
        '(inner, self) ← neg fuel self;
        Return (Not inner, self)
      else unit fuel self
  end
with unit (fuel : nat) (self : _Parser) : outcome (Proposition * _Parser) :=
  match fuel with
  | O => OutOfFuel
  | S fuel =>
      if at_token IDENT self then
        let atomic := Predicate (_current_token_value self) in
        self ← _advance self;
        Return (atomic, self)
      else if at_token LPARENS self then
        self ← _advance self;
        '(prop, self) ← bic fuel self;
        if at_token RPARENS self then
          self ← _advance self;
          Return (prop, self)
        else unit_raise self
      else unit_raise self
  end.

(** The number of tokens [_lex] yields from a text before it returns or
    raises; [n] bounds the number of resumptions. *)
Fixpoint count_tokens (n : nat) (text : string) : nat :=
  match n with
  | O => O
  | S n =>
      match _lex text with
      | Return (Some (_, rest)) => S (count_tokens n rest)
      | _ => O
      end
  end.

Definition token_count (text : string) : nat :=
  count_tokens (String.length text) text.

(** A call depth that is enough for a text: eight levels (the six rules and
    the two loops) for each token, and eight more. *)
Definition depth_bound (text : string) : nat :=
  8 * token_count text + 8.

(** ** API *)

(** [prop(text)], that is [_Parser(text).bic()], within a given call depth:
    the formula [bic] returns; the parser it leaves is dropped. *)
Definition prop_within (fuel : nat) (text : string) : outcome Proposition :=
  self ← _Parser_init text;
  '(p, _) ← bic fuel self;
  Return p.

(** [prop(text)], with the call depth that is enough for the text. *)
Definition prop (text : string) : outcome Proposition :=
  prop_within (depth_bound text) text.

(** [text.split(",")]: the pieces between the commas, at least one. *)
Fixpoint split_comma (text : string) : list string :=
  match text with
  | EmptyString => [EmptyString]
  | String c text' =>
      if Ascii.eqb c "," then EmptyString :: split_comma text'
      else
        match split_comma text' with
        | piece :: pieces => String c piece :: pieces
        | [] => [String c EmptyString]
        end
  end.

(** An exception that leaves the body of a generator expression: a
    [StopIteration] is replaced by a [RuntimeError] (PEP 479), any other
    exception passes unchanged. *)
Definition genexpr_raise (e : exn) : exn :=
  match e with
  | StopIteration => RuntimeError "generator raised StopIteration"
  | _ => e
  end.

(** [tuple(prop(s) for s in pieces)] *)
Fixpoint props_of (pieces : list string) : outcome (list Proposition) :=
  match pieces with
  | [] => Return []
  | s :: pieces' =>
      match prop s with
      | Return p => ps ← props_of pieces'; Return (p :: ps)
      | Raise e => Raise (genexpr_raise e)
      | OutOfFuel => OutOfFuel
      end
  end.

(** [props(text)], that is [tuple(prop(s) for s in text.split(","))]. *)
Definition props (text : string) : outcome (list Proposition) :=
  props_of (split_comma text).

(** ** The formula model of [core.py] *)

(** Modelled from the spec: [Proposition.__str__] of [core.py], which is not
    among the sources.  A leaf renders as its name, [Not] as [~] followed by
    its operand, every binary node as [(l op r)] with one space on each side
    of the connective. *)
Fixpoint to_string (u : Proposition) : string :=
  match u with
  | Predicate name => name
  | Not x => "~" +:+ to_string x
  | And l r => "(" +:+ to_string l +:+ " & " +:+ to_string r +:+ ")"
  | Or l r => "(" +:+ to_string l +:+ " | " +:+ to_string r +:+ ")"
  | Implies l r => "(" +:+ to_string l +:+ " -> " +:+ to_string r +:+ ")"
  | Iff l r => "(" +:+ to_string l +:+ " <-> " +:+ to_string r +:+ ")"
  end.

(** The result of an evaluation: a truth value, or the failure on a name
    the interpretation does not assign (a [ValueError] in the tests). *)
Inductive evaluation :=
| Value (b : bool)
| MissingVariable (name : string).

(** Modelled from the spec: [Proposition._interpret] of [core.py], which is
    not among the sources.  The left operand is evaluated first; [And], [Or]
    and [Implies] leave the right operand alone when the left one decides,
    [Iff] evaluates both. *)
Fixpoint interpret (u : Proposition) (interp : gmap string bool) : evaluation :=
  match u with
  | Predicate name =>
      match interp !! name with
      | Some b => Value b
      | None => MissingVariable name
      end
  | Not x =>
      match interpret x interp with
      | Value b => Value (negb b)
      | MissingVariable n => MissingVariable n
      end
  | And l r =>
      match interpret l interp with
      | Value false => Value false
      | Value true => interpret r interp
      | MissingVariable n => MissingVariable n
      end
  | Or l r =>
      match interpret l interp with
      | Value true => Value true
      | Value false => interpret r interp
      | MissingVariable n => MissingVariable n
      end
  | Implies l r =>
      match interpret l interp with
      | Value false => Value true
      | Value true => interpret r interp
      | MissingVariable n => MissingVariable n
      end
  | Iff l r =>
      match interpret l interp with
      | Value a =>
          match interpret r interp with
          | Value b => Value (eqb a b)
          | MissingVariable n => MissingVariable n
          end
      | MissingVariable n => MissingVariable n
      end
  end.

(** The operands the tests hand to the operator methods: a formula, one of
    the booleans, or a plain [object()]. *)
Inductive operand :=
| a_formula (v : Proposition)
| a_bool (b : bool)
| an_object.

(** What an operator method hands back: a new node, or the sentinel. *)
Inductive composition :=
| Composed (u : Proposition)
| NotImplemented.

(** Modelled from the spec: [Proposition.__and__] of [core.py], which is not
    among the sources. *)
Definition __and__ (u : Proposition) (x : operand) : composition :=
  match x with
  | a_formula v => Composed (And u v)
  | _ => NotImplemented
  end.

(** Modelled from the spec: [Proposition.__or__] of [core.py], which is not
    among the sources. *)
Definition __or__ (u : Proposition) (x : operand) : composition :=
  match x with
  | a_formula v => Composed (Or u v)
  | _ => NotImplemented
  end.

(** Modelled from the spec: [Proposition.__bool__] of [core.py], which is
    not among the sources.  A formula has no truth value of its own. *)
Definition __bool__ (u : Proposition) : outcome bool :=
  Raise TypeError.

(** ** Measures and side conditions used by the statements *)

(** The tokens a parser still has before it: the current one, if any, and
    those its generator will yield. *)
Definition pending (self : _Parser) : nat :=
  token_count (_token_stream self)
  + match _current_token_type self with Some _ => 1 | None => 0 end.

(** The parser that [_advance] leaves when the generator is resumed on
    [text]; [_advance self] is [feed (_token_stream self)]. *)
Definition feed (text : string) : outcome _Parser :=
  _advance (mk_Parser text None "").

(** [runs f self p self']: with enough call depth, method [f] started on
    [self] returns [p] and leaves the parser as [self']. *)
Definition runs (f : nat -> _Parser -> outcome (Proposition * _Parser))
    (self : _Parser) (p : Proposition) (self' : _Parser) : Prop :=
  exists n, forall m, n <= m -> f m self = Return (p, self').

(** The token pattern [[A-Za-z_][A-Za-z0-9_]*] of the grammar. *)
Definition ascii_letter (c : ascii) : bool := between 65 90 c || between 97 122 c.
Definition ascii_digit (c : ascii) : bool := between 48 57 c.
Definition ident_start (c : ascii) : bool := ascii_letter c || Ascii.eqb c "_".
Definition ident_part (c : ascii) : bool :=
  ascii_letter c || ascii_digit c || Ascii.eqb c "_".

Fixpoint all_chars (f : ascii -> bool) (s : string) : bool :=
  match s with
  | EmptyString => true
  | String c s' => f c && all_chars f s'
  end.

Definition is_identifier (name : string) : bool :=
  match name with
  | EmptyString => false
  | String c s => ident_start c && all_chars ident_part s
  end.

(** Every leaf of the tree is named by an identifier. *)
Fixpoint names_ok (u : Proposition) : bool :=
  match u with
  | Predicate name => is_identifier name
  | Not x => names_ok x
  | And l r | Or l r | Implies l r | Iff l r => names_ok l && names_ok r
  end.

(** A text before which an identifier ends: it is empty or its first
    character does not continue the identifier loop of [_lex]. *)
Definition boundary (rest : string) : bool :=
  match rest with
  | EmptyString => true
  | String c _ => negb (isalnum c || Ascii.eqb c "_")
  end.

(** A text of blanks only. *)
Definition blank (text : string) : bool :=
  all_chars (fun c => char_in c WHITESPACE) text.

(** The four binary connectives of the notation. *)
Inductive connective := conn_and | conn_or | conn_implies | conn_iff.

Definition symbol (o : connective) : string :=
  match o with
  | conn_and => "&"
  | conn_or => "|"
  | conn_implies => "->"
  | conn_iff => "<->"
  end.

Definition op_token (o : connective) : _TokenType :=
  match o with
  | conn_and => AND
  | conn_or => OR
  | conn_implies => IMPLIES
  | conn_iff => IFF
  end.

Definition node (o : connective) : Proposition -> Proposition -> Proposition :=
  match o with
  | conn_and => And
  | conn_or => Or
  | conn_implies => Implies
  | conn_iff => Iff
  end.

(** The rule of the grammar that reads the connective, counted from the
    loosest: [bic] 1, [cond] 2, [disj] 3, [conj] 4.  A larger number binds
    tighter. *)
Definition strength (o : connective) : nat :=
  match o with
  | conn_and => 4
  | conn_or => 3
  | conn_implies => 2
  | conn_iff => 1
  end.

Definition left_assoc (o : connective) : bool :=
  match o with
  | conn_and | conn_or => true
  | conn_implies | conn_iff => false
  end.

(** In [a o1 b o2 c], whether [a o1 b] is the left operand of [o2]. *)
Definition groups_left (o1 o2 : connective) : bool :=
  (strength o2 <? strength o1) || ((strength o1 =? strength o2) && left_assoc o1).

(** The text [ o b1 o b2 ...] that continues a first operand, each operand
    in its rendered form. *)
Fixpoint chain_tail (o : connective) (bs : list Proposition) : string :=
  match bs with
  | [] => ""
  | b :: bs' => " " +:+ symbol o +:+ " " +:+ to_string b +:+ chain_tail o bs'
  end.

(** The parser after the operand that [chain_tail o bs] continues: at the
    connective, or at the end. *)
Definition tail_state (o : connective) (bs : list Proposition) : _Parser :=
  match bs with
  | [] => mk_Parser "" None ""
  | b :: bs' =>
      mk_Parser (" " +:+ to_string b +:+ chain_tail o bs')
        (Some (op_token o)) (symbol o)
  end.

(** [a o (b1 o (b2 o ...))] *)
Fixpoint nest_right (o : connective) (a : Proposition) (bs : list Proposition)
    : Proposition :=
  match bs with
  | [] => a
  | b :: bs' => node o a (nest_right o b bs')
  end.

(** [((a o b1) o b2) o ...] *)
Definition nest_left (o : connective) (a : Proposition) (bs : list Proposition)
    : Proposition :=
  foldl (node o) a bs.

(** The tokens of the four binary connectives. *)
Definition binary_token (ty : _TokenType) : bool :=
  match ty with
  | AND | OR | IMPLIES | IFF => true
  | IDENT | NOT | LPARENS | RPARENS => false
  end.

(** A text that can stand behind a formula without continuing it: it does
    not prolong a final identifier, and the first token [_lex] yields from
    it is not a binary connective. *)
Definition stray (sfx : string) : bool :=
  boundary sfx &&
  match _lex sfx with
  | Return (Some ((ty, _), _)) => negb (binary_token ty)
  | _ => false
  end.

(** [follows sfx s1 s2]: parser [s2] reads the text of parser [s1] with
    [sfx] behind it.  Either both are at the same token, or [s1] has met the
    end of its text and [s2] is at the first token of [sfx]. *)
Inductive follows (sfx : string) : _Parser -> _Parser -> Prop :=
| follows_sync stream ty v :
    follows sfx (mk_Parser stream (Some ty) v)
                (mk_Parser (stream +:+ sfx) (Some ty) v)
| follows_end ty v rest :
    _lex sfx = Return (Some ((ty, v), rest)) ->
    follows sfx (mk_Parser "" None "") (mk_Parser rest (Some ty) v).

(** A method that returns on a text returns the same formula when the text
    has a stray text behind it. *)
Definition carries (sfx : string)
    (f : _Parser -> outcome (Proposition * _Parser)) : Prop :=
  forall s1 s2 p s1', follows sfx s1 s2 -> f s1 = Return (p, s1') ->
    exists s2', f s2 = Return (p, s2') /\ follows sfx s1' s2'.

(** [",".join(pieces)] *)
Fixpoint join_comma (pieces : list string) : string :=
  match pieces with
  | [] => ""
  | s :: pieces' =>
      match pieces' with
      | [] => s
      | _ :: _ => s +:+ "," +:+ join_comma pieces'
      end
  end.

(** The names a formula mentions. *)
Fixpoint atoms (u : Proposition) : gset string :=
  match u with
  | Predicate name => {[ name ]}
  | Not x => atoms x
  | And l r | Or l r | Implies l r | Iff l r => atoms l ∪ atoms r
  end.

(** The classical truth value of a formula under a total valuation. *)
Fixpoint truth (v : string -> bool) (u : Proposition) : bool :=
  match u with
  | Predicate name => v name
  | Not x => negb (truth v x)
  | And l r => truth v l && truth v r
  | Or l r => truth v l || truth v r
  | Implies l r => implb (truth v l) (truth v r)
  | Iff l r => eqb (truth v l) (truth v r)
  end.

(** ** Further notions: tokens, whole parses, sizes *)

(** A lexeme the identifier branch of [_lex] can build: a first character
    that passes [c.isalpha() or c == "_"], then characters that pass
    [c.isalnum() or c == "_"]. *)
Definition lexed_identifier (v : string) : bool :=
  match v with
  | EmptyString => false
  | String c s =>
      (isalpha c || Ascii.eqb c "_")
      && all_chars (fun d => isalnum d || Ascii.eqb d "_") s
  end.

(** The lexeme that goes with a token type in the [yield]s of [_lex]. *)
Definition lexeme_of (ty : _TokenType) (v : string) : bool :=
  match ty with
  | IDENT => lexed_identifier v
  | NOT => bool_decide (v = "~")
  | AND => bool_decide (v = "&")
  | OR => bool_decide (v = "|")
  | IMPLIES => bool_decide (v = "->")
  | IFF => bool_decide (v = "<->")
  | LPARENS => bool_decide (v = "(")
  | RPARENS => bool_decide (v = ")")
  end.

(** The parser whose generator is exhausted: what [_advance] leaves at the
    end of the tokens. *)
Definition exhausted : _Parser := mk_Parser "" None "".

(** [_Parser(text).bic()] together with the parser it leaves. *)
Definition parse_within (fuel : nat) (text : string)
    : outcome (Proposition * _Parser) :=
  self ← _Parser_init text;
  bic fuel self.

Definition parse (text : string) : outcome (Proposition * _Parser) :=
  parse_within (depth_bound text) text.

(** The number of nodes of a formula. *)
Fixpoint nodes (u : Proposition) : nat :=
  match u with
  | Predicate _ => 1
  | Not x => S (nodes x)
  | And l r | Or l r | Implies l r | Iff l r => S (nodes l + nodes r)
  end.

(** Every leaf is named by a lexeme of the identifier branch. *)
Fixpoint leaves_lexed (u : Proposition) : bool :=
  match u with
  | Predicate name => lexed_identifier name
  | Not x => leaves_lexed x
  | And l r | Or l r | Implies l r | Iff l r => leaves_lexed l && leaves_lexed r
  end.

(** The current token, when it is an IDENT, carries a lexeme of the
    identifier branch. *)
Definition ident_current (self : _Parser) : Prop :=
  _current_token_type self = Some IDENT ->
  lexed_identifier (_current_token_value self) = true.

(** The number of occurrences of a character in a text. *)
Fixpoint count_char (c : ascii) (s : string) : nat :=
  match s with
  | EmptyString => 0
  | String d s' => (if Ascii.eqb d c then 1 else 0) + count_char c s'
  end.

(** The three messages of the module, and whether an exception is a
    [ValueError] that carries one of them. *)
Inductive module_error : exn -> Prop :=
| error_end_of_string : module_error (ValueError _UNEXP_END_OF_STR)
| error_character c : module_error (ValueError (_unexp_char c))
| error_token v : module_error (ValueError (_unexp_token v)).

(** A method raises nothing but the errors of the module. *)
Definition raises_module_errors {A} (f : _Parser -> outcome A) : Prop :=
  forall self e, f self = Raise e -> module_error e.

(** A method that starts at a well-formed current token returns a formula
    whose leaves are lexemes, and leaves a well-formed current token. *)
Definition keeps_lexemes (f : _Parser -> outcome (Proposition * _Parser)) : Prop :=
  forall self p self', ident_current self -> f self = Return (p, self') ->
    leaves_lexed p = true /\ ident_current self'.

(** [props] with the call depth of each [prop] bounded by [fuel]. *)
Fixpoint props_of_within (fuel : nat) (pieces : list string)
    : outcome (list Proposition) :=
  match pieces with
  | [] => Return []
  | s :: pieces' =>
      match prop_within fuel s with
      | Return p => ps ← props_of_within fuel pieces'; Return (p :: ps)
      | Raise e => Raise (genexpr_raise e)
      | OutOfFuel => OutOfFuel
      end
  end.

Definition props_within (fuel : nat) (text : string) : outcome (list Proposition) :=
  props_of_within fuel (split_comma text).

(** [fails f self e]: with enough call depth, method [f] started on [self]
    raises [e]. *)
Definition fails {A} (f : nat -> _Parser -> outcome A)
    (self : _Parser) (e : exn) : Prop :=
  exists n, forall m, n <= m -> f m self = Raise e.

(** [padded ws s1 s2]: parser [s2] reads the text of parser [s1] with the
    blanks [ws] behind it. *)
Inductive padded (ws : string) : _Parser -> _Parser -> Prop :=
| padded_sync stream ty v :
    padded ws (mk_Parser stream (Some ty) v) (mk_Parser (stream +:+ ws) (Some ty) v)
| padded_end : padded ws exhausted exhausted.

(** A method that returns on a text returns the same formula when blanks
    are put behind the text. *)
Definition pads (ws : string)
    (f : _Parser -> outcome (Proposition * _Parser)) : Prop :=
  forall s1 s2 p s1', padded ws s1 s2 -> f s1 = Return (p, s1') ->
    exists s2', f s2 = Return (p, s2') /\ padded ws s1' s2'.

(** A parser method never leaves more tokens pending than it found. *)
Definition shrinking (f : _Parser -> outcome (Proposition * _Parser)) : Prop :=
  forall self p self', f self = Return (p, self') -> pending self' <= pending self.

(** * Properties *)

(** ** Outcomes *)

Lemma bind_Return_inv {A B} (m : outcome A) (f : A -> outcome B) b :
  m ≫= f = Return b -> exists a, m = Return a /\ f a = Return b.
Proof. destruct m as [a| |]; simpl; [eauto | discriminate..]. Qed.

Lemma bind_settled_inv {A B} (m : outcome A) (f : A -> outcome B) :
  settled (m ≫= f) = true -> settled m = true.
Proof. destruct m; simpl; auto. Qed.

Ltac bind_inv H :=
  let a := fresh "a" in
  let Ha := fresh "Ha" in
  apply bind_Return_inv in H; destruct H as (a & Ha & H).

(** ** The lexer consumes its input *)

Lemma ident_tail_length s parts rest :
  ident_tail s = (parts, rest) ->
  String.length parts + String.length rest = String.length s.
Proof.
  revert parts rest; induction s as [|c s IH]; intros parts rest; simpl.
  - intros [= <- <-]; reflexivity.
  - destruct (isalnum c || Ascii.eqb c "_").
    + destruct (ident_tail s) as [p r] eqn:E. intros [= <- <-].
      simpl. rewrite <- (IH p r eq_refl). lia.
    + intros [= <- <-]. reflexivity.
Qed.

Lemma _lex_accept_length it expected it' :
  _lex_accept it expected = Return it' ->
  String.length it = S (String.length it').
Proof.
  destruct it as [|c it0]; simpl; [discriminate|].
  destruct (Ascii.eqb c expected); [|discriminate].
  intros [= <-]; reflexivity.
Qed.

Lemma _lex_shrinks text tok rest :
  _lex text = Return (Some (tok, rest)) ->
  String.length rest < String.length text.
Proof.
  induction text as [|c it IH]; simpl; [discriminate|].
  repeat case_match; intros E; simplify_eq/=; try lia.
  - bind_inv E. apply _lex_accept_length in Ha. simplify_eq/=. lia.
  - bind_inv E. bind_inv E. apply _lex_accept_length in Ha, Ha0.
    simplify_eq/=. lia.
  - apply IH in E; lia.
  - match goal with H : ident_tail _ = _ |- _ => apply ident_tail_length in H end.
    lia.
Qed.

Lemma count_tokens_agree n m text :
  String.length text <= n -> String.length text <= m ->
  count_tokens n text = count_tokens m text.
Proof.
  revert m text. induction n as [|n IH]; intros m text Hn Hm.
  - destruct text; simpl in *; [|lia]. destruct m; reflexivity.
  - destruct m as [|m].
    + destruct text; simpl in *; [reflexivity | lia].
    + simpl. destruct (_lex text) as [[[tok rest]|]| |] eqn:E; try reflexivity.
      apply _lex_shrinks in E. f_equal. apply IH; lia.
Qed.

Lemma token_count_yield text tok rest :
  _lex text = Return (Some (tok, rest)) ->
  token_count text = S (token_count rest).
Proof.
  intros E. unfold token_count.
  pose proof (_lex_shrinks _ _ _ E) as Hlt.
  destruct (String.length text) as [|k] eqn:Ek; [lia|].
  simpl. rewrite E. f_equal. apply count_tokens_agree; lia.
Qed.

Lemma token_count_stop text :
  (forall tok rest, _lex text <> Return (Some (tok, rest))) ->
  token_count text = 0.
Proof.
  intros E. unfold token_count.
  destruct (String.length text) as [|k]; [reflexivity|].
  simpl. destruct (_lex text) as [[[tok rest]|]| |] eqn:E'; try reflexivity.
  exfalso. eapply E; reflexivity.
Qed.

Lemma token_count_le_length text : token_count text <= String.length text.
Proof.
  remember (String.length text) as n eqn:Hn.
  assert (Hle : String.length text <= n) by lia. clear Hn.
  revert text Hle. induction n as [|n IH]; intros text Hle.
  - destruct text; simpl in *; [|lia]. reflexivity.
  - destruct (_lex text) as [[[tok rest]|]| |] eqn:E.
    + rewrite (token_count_yield _ _ _ E).
      apply _lex_shrinks in E. specialize (IH rest). lia.
    + rewrite token_count_stop; [lia | congruence].
    + rewrite token_count_stop; [lia | congruence].
    + rewrite token_count_stop; [lia | congruence].
Qed.

(** ** The parser consumes its tokens *)

Lemma _lex_settled text : settled (_lex text) = true.
Proof.
  induction text as [|c it IH]; simpl; [reflexivity|].
  repeat case_match; simpl; auto.
  - destruct it as [|d it']; simpl; [reflexivity|]. case_match; reflexivity.
  - destruct it as [|d it']; simpl; [reflexivity|]. case_match; simpl; [|reflexivity].
    destruct it' as [|e it'']; simpl; [reflexivity|]. case_match; reflexivity.
Qed.

Lemma _advance_settled self : settled (_advance self) = true.
Proof.
  unfold _advance. pose proof (_lex_settled (_token_stream self)) as H.
  destruct (_lex (_token_stream self)) as [[[[ty v] rest]|]| |]; simpl in *; auto.
Qed.

Lemma _advance_pending self self' :
  _advance self = Return self' ->
  pending self' = token_count (_token_stream self).
Proof.
  unfold _advance, pending. intros H. bind_inv H.
  destruct a as [[[ty v] rest]|]; simplify_eq/=.
  - rewrite (token_count_yield _ _ _ Ha). lia.
  - rewrite (token_count_stop (_token_stream self)) by congruence. reflexivity.
Qed.

Lemma at_token_advance ty self self' :
  at_token ty self = true -> _advance self = Return self' ->
  pending self' < pending self.
Proof.
  unfold at_token. intros Hty Hadv. apply bool_decide_eq_true in Hty.
  apply _advance_pending in Hadv. unfold pending at 2. rewrite Hty. lia.
Qed.

Lemma unit_raise_not_Return {A} self (a : A) : unit_raise self <> Return a.
Proof. unfold unit_raise. destruct (_current_token_type self); discriminate. Qed.

Ltac open_call H :=
  repeat match type of H with
  | _ ≫= _ = Return _ =>
      let a := fresh "a" in let Ha := fresh "Ha" in
      apply bind_Return_inv in H; destruct H as (a & Ha & H);
      lazymatch type of a with
      | (_ * _)%type => destruct a as [? ?]
      | _ => idtac
      end
  | (if at_token ?ty ?s then _ else _) = Return _ =>
      let E := fresh "Hat" in destruct (at_token ty s) eqn:E
  | unit_raise _ = Return _ => exfalso; exact (unit_raise_not_Return _ _ H)
  end.

Lemma methods_shrinking n :
  shrinking (bic n) /\ shrinking (cond n) /\ shrinking (disj n)
  /\ (forall c, shrinking (disj_while n c))
  /\ shrinking (conj n) /\ (forall c, shrinking (conj_while n c))
  /\ shrinking (neg n) /\ shrinking (unit n).
Proof.
  induction n as [|n (IHbic & IHcond & IHdisj & IHdw & IHconj & IHcw & IHneg & IHunit)].
  { repeat split; intros; intros ? ? ? ?; discriminate. }
  repeat split; [| | |intros c| |intros c| |]; intros self p self' H; simpl in H; open_call H.
  all: simplify_eq/=.
  all: repeat match goal with
       | Hat : at_token _ ?s = true, Hadv : _advance ?s = Return _ |- _ =>
           apply (at_token_advance _ _ _ Hat) in Hadv; clear Hat
       | Hc : _ = Return (_, _) |- _ =>
           first [ apply IHbic in Hc | apply IHcond in Hc | apply IHdisj in Hc
                 | apply IHdw in Hc | apply IHconj in Hc | apply IHcw in Hc
                 | apply IHneg in Hc | apply IHunit in Hc ]
       end.
  all: lia.
Qed.

(** ** Termination: a call depth linear in the pending tokens is enough *)

Lemma unit_raise_settled {A} self : settled (@unit_raise A self) = true.
Proof. unfold unit_raise. destruct (_current_token_type self); reflexivity. Qed.

Lemma methods_settle n :
  (forall self, 8 * pending self + 8 <= n -> settled (bic n self) = true)
  /\ (forall self, 8 * pending self + 7 <= n -> settled (cond n self) = true)
  /\ (forall self, 8 * pending self + 6 <= n -> settled (disj n self) = true)
  /\ (forall c self, 8 * pending self + 5 <= n -> settled (disj_while n c self) = true)
  /\ (forall self, 8 * pending self + 4 <= n -> settled (conj n self) = true)
  /\ (forall c self, 8 * pending self + 3 <= n -> settled (conj_while n c self) = true)
  /\ (forall self, 8 * pending self + 2 <= n -> settled (neg n self) = true)
  /\ (forall self, 8 * pending self + 1 <= n -> settled (unit n self) = true).
Proof.
  induction n as [|n (IHbic & IHcond & IHdisj & IHdw & IHconj & IHcw & IHneg & IHunit)].
  { repeat split; intros; lia. }
  pose proof (methods_shrinking n) as (Sbic & Scond & Sdisj & Sdw & Sconj & Scw & Sneg & Sunit).
  repeat split; [| | |intros c| |intros c| |]; intros self Hn; simpl.
  all: repeat first
    [ reflexivity
    | apply unit_raise_settled
    | match goal with
      | |- settled (if at_token ?ty ?s then _ else _) = true =>
          let E := fresh "Hat" in destruct (at_token ty s) eqn:E
      | |- settled (_advance ?s ≫= _) = true =>
          let E := fresh "Eadv" in
          let Hs := fresh "Hs" in
          pose proof (_advance_settled s) as Hs;
          destruct (_advance s) as [?| |] eqn:E; simpl in Hs |- *;
          [ | reflexivity | discriminate Hs];
          match goal with
          | Hat : at_token _ s = true |- _ =>
              pose proof (at_token_advance _ _ _ Hat E); clear Hat
          end
      | |- settled (?m ≫= _) = true =>
          let E := fresh "Ecall" in
          let Hs := fresh "Hs" in
          assert (Hs : settled m = true)
            by (first [apply IHbic | apply IHcond | apply IHdisj | apply IHdw
                      | apply IHconj | apply IHcw | apply IHneg | apply IHunit]; lia);
          destruct m as [[? ?]| |] eqn:E; simpl in Hs |- *;
          [ | reflexivity | discriminate Hs];
          first [ apply Sbic in E | apply Scond in E | apply Sdisj in E | apply Sdw in E
                | apply Sconj in E | apply Scw in E | apply Sneg in E | apply Sunit in E ]
      | |- settled _ = true =>
          first [apply IHbic | apply IHcond | apply IHdisj | apply IHdw
                | apply IHconj | apply IHcw | apply IHneg | apply IHunit]; lia
      end ].
Qed.

(** ** One step of each method *)

Lemma bind_Return {A B} (a : A) (f : A -> outcome B) : Return a ≫= f = f a.
Proof. reflexivity. Qed.

Lemma bind_Raise {A B} e (f : A -> outcome B) : Raise e ≫= f = Raise e.
Proof. reflexivity. Qed.

Lemma bic_S n self :
  bic (S n) self =
  '(lhs, self) ← cond n self;
  if at_token IFF self then
    self ← _advance self;
    '(rhs, self) ← bic n self;
    Return (Iff lhs rhs, self)
  else Return (lhs, self).
Proof. reflexivity. Qed.

Lemma cond_S n self :
  cond (S n) self =
  '(lhs, self) ← disj n self;
  if at_token IMPLIES self then
    self ← _advance self;
    '(rhs, self) ← cond n self;
    Return (Implies lhs rhs, self)
  else Return (lhs, self).
Proof. reflexivity. Qed.

Lemma disj_S n self :
  disj (S n) self =
  '(current_prop, self) ← conj n self; disj_while n current_prop self.
Proof. reflexivity. Qed.

Lemma disj_while_S n current_prop self :
  disj_while (S n) current_prop self =
  if at_token OR self then
    self ← _advance self;
    '(rhs, self) ← conj n self;
    disj_while n (Or current_prop rhs) self
  else Return (current_prop, self).
Proof. reflexivity. Qed.

Lemma conj_S n self :
  conj (S n) self =
  '(current_prop, self) ← neg n self; conj_while n current_prop self.
Proof. reflexivity. Qed.

Lemma conj_while_S n current_prop self :
  conj_while (S n) current_prop self =
  if at_token AND self then
    self ← _advance self;
    '(rhs, self) ← neg n self;
    conj_while n (And current_prop rhs) self
  else Return (current_prop, self).
Proof. reflexivity. Qed.

Lemma neg_S n self :
  neg (S n) self =
  if at_token NOT self then
    self ← _advance self;
    '(inner, self) ← neg n self;
    Return (Not inner, self)
  else unit n self.
Proof. reflexivity. Qed.

Lemma unit_S n self :
  unit (S n) self =
  if at_token IDENT self then
    let atomic := Predicate (_current_token_value self) in
    self ← _advance self;
    Return (atomic, self)
  else if at_token LPARENS self then
    self ← _advance self;
    '(prop, self) ← bic n self;
    if at_token RPARENS self then
      self ← _advance self;
      Return (prop, self)
    else unit_raise self
  else unit_raise self.
Proof. reflexivity. Qed.

(** ** More fuel does not change a settled call *)

Lemma methods_fuel_S n :
  (forall self, settled (bic n self) = true -> bic (S n) self = bic n self)
  /\ (forall self, settled (cond n self) = true -> cond (S n) self = cond n self)
  /\ (forall self, settled (disj n self) = true -> disj (S n) self = disj n self)
  /\ (forall c self, settled (disj_while n c self) = true ->
        disj_while (S n) c self = disj_while n c self)
  /\ (forall self, settled (conj n self) = true -> conj (S n) self = conj n self)
  /\ (forall c self, settled (conj_while n c self) = true ->
        conj_while (S n) c self = conj_while n c self)
  /\ (forall self, settled (neg n self) = true -> neg (S n) self = neg n self)
  /\ (forall self, settled (unit n self) = true -> unit (S n) self = unit n self).
Proof.
  induction n as [|n (IHbic & IHcond & IHdisj & IHdw & IHconj & IHcw & IHneg & IHunit)].
  { repeat split; intros; discriminate. }
  repeat split; [| | |intros c| |intros c| |]; intros self Hs.
  1: rewrite (bic_S (S n)); rewrite bic_S in Hs |- *.
  2: rewrite (cond_S (S n)); rewrite cond_S in Hs |- *.
  3: rewrite (disj_S (S n)); rewrite disj_S in Hs |- *.
  4: rewrite (disj_while_S (S n)); rewrite disj_while_S in Hs |- *.
  5: rewrite (conj_S (S n)); rewrite conj_S in Hs |- *.
  6: rewrite (conj_while_S (S n)); rewrite conj_while_S in Hs |- *.
  7: rewrite (neg_S (S n)); rewrite neg_S in Hs |- *.
  8: rewrite (unit_S (S n)); rewrite unit_S in Hs |- *.
  all: cbv zeta in Hs |- *.
  all: repeat first
    [ reflexivity
    | match goal with
      | Hs : settled (if at_token ?ty ?s then _ else _) = true |- _ =>
          destruct (at_token ty s)
      | Hs : settled (_advance ?s ≫= _) = true |- _ =>
          destruct (_advance s) as [?| |];
          [ rewrite ?bind_Return in Hs; rewrite ?bind_Return; cbv beta iota in Hs |- *
          | reflexivity | discriminate Hs ]
      | Hs : settled (?m ≫= _) = true |- _ =>
          let H1 := fresh "H1" in
          pose proof (bind_settled_inv _ _ Hs) as H1;
          first [ rewrite (IHbic _ H1) | rewrite (IHcond _ H1) | rewrite (IHdisj _ H1)
                | rewrite (IHdw _ _ H1) | rewrite (IHconj _ H1) | rewrite (IHcw _ _ H1)
                | rewrite (IHneg _ H1) | rewrite (IHunit _ H1) ];
          clear H1;
          destruct m as [[? ?]| |];
          [ rewrite ?bind_Return in Hs; rewrite ?bind_Return; cbv beta iota in Hs |- *
          | reflexivity | discriminate Hs ]
      | Hs : settled ?m = true |- _ = ?m =>
          first [ apply IHbic | apply IHcond | apply IHdisj | apply IHdw
                | apply IHconj | apply IHcw | apply IHneg | apply IHunit ]; exact Hs
      end ].
Qed.

Lemma methods_fuel_add k n :
  (forall self, settled (bic n self) = true -> bic (k + n) self = bic n self)
  /\ (forall self, settled (cond n self) = true -> cond (k + n) self = cond n self)
  /\ (forall self, settled (disj n self) = true -> disj (k + n) self = disj n self)
  /\ (forall c self, settled (disj_while n c self) = true ->
        disj_while (k + n) c self = disj_while n c self)
  /\ (forall self, settled (conj n self) = true -> conj (k + n) self = conj n self)
  /\ (forall c self, settled (conj_while n c self) = true ->
        conj_while (k + n) c self = conj_while n c self)
  /\ (forall self, settled (neg n self) = true -> neg (k + n) self = neg n self)
  /\ (forall self, settled (unit n self) = true -> unit (k + n) self = unit n self).
Proof.
  induction k as [|k (IHbic & IHcond & IHdisj & IHdw & IHconj & IHcw & IHneg & IHunit)].
  { repeat split; intros; reflexivity. }
  pose proof (methods_fuel_S (k + n)) as (Sbic & Scond & Sdisj & Sdw & Sconj & Scw & Sneg & Sunit).
  repeat split; [| | |intros c| |intros c| |]; intros self Hs; simpl Nat.add.
  - rewrite Sbic; rewrite IHbic; auto.
  - rewrite Scond; rewrite IHcond; auto.
  - rewrite Sdisj; rewrite IHdisj; auto.
  - rewrite Sdw; rewrite IHdw; auto.
  - rewrite Sconj; rewrite IHconj; auto.
  - rewrite Scw; rewrite IHcw; auto.
  - rewrite Sneg; rewrite IHneg; auto.
  - rewrite Sunit; rewrite IHunit; auto.
Qed.

Lemma bic_fuel_le n m self :
  n <= m -> settled (bic n self) = true -> bic m self = bic n self.
Proof.
  intros Hle Hs. replace m with ((m - n) + n) by lia.
  apply (methods_fuel_add (m - n) n); exact Hs.
Qed.

Lemma neg_fuel_le n m self :
  n <= m -> settled (neg n self) = true -> neg m self = neg n self.
Proof.
  intros Hle Hs. replace m with ((m - n) + n) by lia.
  apply (methods_fuel_add (m - n) n); exact Hs.
Qed.

Lemma _Parser_init_pending text self :
  _Parser_init text = Return self -> pending self = token_count text.
Proof.
  unfold _Parser_init, pending. intros H. bind_inv H.
  destruct a as [[[ty v] rest]|]; simplify_eq/=.
  rewrite (token_count_yield _ _ _ Ha). lia.
Qed.

Lemma prop_within_settled n text :
  depth_bound text <= n -> settled (prop_within n text) = true.
Proof.
  intros Hn. unfold prop_within.
  destruct (_Parser_init text) as [self| |] eqn:E; simpl; [|reflexivity|].
  - pose proof (_Parser_init_pending _ _ E) as Hp.
    destruct (methods_settle n) as (Hbic & _).
    specialize (Hbic self). unfold depth_bound in Hn. rewrite Hp in Hbic.
    specialize (Hbic Hn). destruct (bic n self) as [[p s]| |]; simpl in *; auto.
  - unfold _Parser_init in E. pose proof (_lex_settled text) as Hl.
    destruct (_lex text) as [[[[ty v] rest]|]| |]; simpl in *; discriminate.
Qed.

Lemma prop_within_le n m text :
  n <= m -> settled (prop_within n text) = true ->
  prop_within m text = prop_within n text.
Proof.
  intros Hle. unfold prop_within.
  destruct (_Parser_init text) as [self| |]; simpl; try reflexivity.
  intros Hs. rewrite (bic_fuel_le n m self Hle); [reflexivity|].
  destruct (bic n self) as [[p s]| |]; simpl in *; auto.
Qed.

Lemma prop_within_prop n text :
  settled (prop_within n text) = true -> prop text = prop_within n text.
Proof.
  intros Hs. unfold prop.
  destruct (Nat.le_ge_cases n (depth_bound text)) as [Hle|Hge].
  - apply prop_within_le; assumption.
  - symmetry. apply prop_within_le; [assumption|].
    apply prop_within_settled. lia.
Qed.

Lemma prop_within_Return n text p :
  prop_within n text = Return p -> prop text = Return p.
Proof. intros H. rewrite (prop_within_prop n); [exact H | rewrite H; reflexivity]. Qed.

Lemma prop_within_Raise n text e :
  prop_within n text = Raise e -> prop text = Raise e.
Proof. intros H. rewrite (prop_within_prop n); [exact H | rewrite H; reflexivity]. Qed.

(** ** Identifiers and blanks under the lexer *)

Lemma _advance_feed self : _advance self = feed (_token_stream self).
Proof. reflexivity. Qed.

Lemma ident_start_lex c :
  ident_start c = true ->
  Ascii.eqb c "~" = false /\ Ascii.eqb c "&" = false /\ Ascii.eqb c "|" = false
  /\ Ascii.eqb c "-" = false /\ Ascii.eqb c "<" = false /\ Ascii.eqb c "(" = false
  /\ Ascii.eqb c ")" = false /\ char_in c WHITESPACE = false
  /\ (isalpha c || Ascii.eqb c "_") = true.
Proof.
  destruct c as [[] [] [] [] [] [] [] []]; vm_compute; intros H;
    first [discriminate H | repeat split].
Qed.

Lemma ident_part_isalnum c :
  ident_part c = true -> (isalnum c || Ascii.eqb c "_") = true.
Proof.
  destruct c as [[] [] [] [] [] [] [] []]; vm_compute; intros H;
    first [discriminate H | reflexivity].
Qed.

Lemma ident_tail_at_boundary rest :
  boundary rest = true -> ident_tail rest = (EmptyString, rest).
Proof.
  destruct rest as [|d rest]; [reflexivity|]. simpl. intros Hr.
  apply negb_true_iff in Hr. rewrite Hr. reflexivity.
Qed.

Lemma ident_tail_run x rest :
  all_chars ident_part x = true -> boundary rest = true ->
  ident_tail (x +:+ rest) = (x, rest).
Proof.
  intros Hx Hr. induction x as [|c x IH]; simpl in *.
  - apply ident_tail_at_boundary. exact Hr.
  - apply andb_true_iff in Hx as [Hc Hx].
    rewrite (ident_part_isalnum _ Hc), (IH Hx). reflexivity.
Qed.

Lemma _lex_identifier x rest :
  is_identifier x = true -> boundary rest = true ->
  _lex (x +:+ rest) = Return (Some ((IDENT, x), rest)).
Proof.
  destruct x as [|c x]; [discriminate|]. simpl. intros Hx Hr.
  apply andb_true_iff in Hx as [Hc Hx].
  destruct (ident_start_lex _ Hc) as (-> & -> & -> & -> & -> & -> & -> & Hw & ->).
  simpl in Hw. rewrite Hw. rewrite (ident_tail_run _ _ Hx Hr). reflexivity.
Qed.

Lemma feed_identifier x rest :
  is_identifier x = true -> boundary rest = true ->
  feed (x +:+ rest) = Return (mk_Parser rest (Some IDENT) x).
Proof.
  intros Hx Hr. unfold feed, _advance. simpl.
  rewrite (_lex_identifier _ _ Hx Hr). reflexivity.
Qed.

Lemma _lex_blank text : blank text = true -> _lex text = Return None.
Proof.
  induction text as [|c it IH]; [reflexivity|].
  unfold blank. simpl all_chars. intros H. apply andb_true_iff in H as [Hc Hit].
  assert (Hlex : _lex (String c it) = _lex it).
  { destruct c as [[] [] [] [] [] [] [] []]; vm_compute in Hc;
      first [discriminate Hc | reflexivity]. }
  rewrite Hlex. apply IH. exact Hit.
Qed.

(** ** The methods as derivation rules *)

Ltac enough_depth n :=
  exists n; intros m Hm;
  destruct m as [|m]; [lia|].

Ltac by_run H := rewrite H by lia; rewrite bind_Return; cbv beta iota.

Lemma runs_unit_ident self self' :
  at_token IDENT self = true -> _advance self = Return self' ->
  runs unit self (Predicate (_current_token_value self)) self'.
Proof.
  intros Hat Hadv. enough_depth 1.
  rewrite unit_S, Hat. cbv zeta. rewrite Hadv. reflexivity.
Qed.

Lemma runs_unit_parens self s1 p s2 s3 :
  at_token LPARENS self = true -> _advance self = Return s1 ->
  runs bic s1 p s2 ->
  at_token RPARENS s2 = true -> _advance s2 = Return s3 ->
  runs unit self p s3.
Proof.
  intros Hat Hadv [n Hbic] Hat2 Hadv2. enough_depth (S n).
  rewrite unit_S. unfold at_token in *.
  apply bool_decide_eq_true in Hat. rewrite Hat.
  rewrite bool_decide_eq_false_2 by discriminate.
  rewrite bool_decide_eq_true_2 by reflexivity.
  rewrite Hadv, bind_Return. by_run Hbic.
  rewrite Hat2, Hadv2. reflexivity.
Qed.

Lemma runs_neg_not self s1 p s2 :
  at_token NOT self = true -> _advance self = Return s1 ->
  runs neg s1 p s2 -> runs neg self (Not p) s2.
Proof.
  intros Hat Hadv [n Hneg]. enough_depth (S n).
  rewrite neg_S, Hat, Hadv, bind_Return. by_run Hneg. reflexivity.
Qed.

Lemma runs_neg_unit self p s1 :
  at_token NOT self = false -> runs unit self p s1 -> runs neg self p s1.
Proof.
  intros Hat [n Hunit]. enough_depth (S n).
  rewrite neg_S, Hat. apply Hunit. lia.
Qed.

Lemma runs_conj_while_stop c self :
  at_token AND self = false -> runs (fun n => conj_while n c) self c self.
Proof. intros Hat. enough_depth 1. rewrite conj_while_S, Hat. reflexivity. Qed.

Lemma runs_conj_while_step c self s1 r s2 p s3 :
  at_token AND self = true -> _advance self = Return s1 ->
  runs neg s1 r s2 ->
  runs (fun n => conj_while n (And c r)) s2 p s3 ->
  runs (fun n => conj_while n c) self p s3.
Proof.
  intros Hat Hadv [n1 Hneg] [n2 Hloop]. enough_depth (S (n1 + n2)).
  rewrite conj_while_S, Hat, Hadv, bind_Return. by_run Hneg.
  apply Hloop. lia.
Qed.

Lemma runs_conj self c s1 p s2 :
  runs neg self c s1 -> runs (fun n => conj_while n c) s1 p s2 ->
  runs conj self p s2.
Proof.
  intros [n1 Hneg] [n2 Hloop]. enough_depth (S (n1 + n2)).
  rewrite conj_S. by_run Hneg. apply Hloop. lia.
Qed.

Lemma runs_disj_while_stop c self :
  at_token OR self = false -> runs (fun n => disj_while n c) self c self.
Proof. intros Hat. enough_depth 1. rewrite disj_while_S, Hat. reflexivity. Qed.

Lemma runs_disj_while_step c self s1 r s2 p s3 :
  at_token OR self = true -> _advance self = Return s1 ->
  runs conj s1 r s2 ->
  runs (fun n => disj_while n (Or c r)) s2 p s3 ->
  runs (fun n => disj_while n c) self p s3.
Proof.
  intros Hat Hadv [n1 Hconj] [n2 Hloop]. enough_depth (S (n1 + n2)).
  rewrite disj_while_S, Hat, Hadv, bind_Return. by_run Hconj.
  apply Hloop. lia.
Qed.

Lemma runs_disj self c s1 p s2 :
  runs conj self c s1 -> runs (fun n => disj_while n c) s1 p s2 ->
  runs disj self p s2.
Proof.
  intros [n1 Hconj] [n2 Hloop]. enough_depth (S (n1 + n2)).
  rewrite disj_S. by_run Hconj. apply Hloop. lia.
Qed.

Lemma runs_cond_stop self p s1 :
  runs disj self p s1 -> at_token IMPLIES s1 = false -> runs cond self p s1.
Proof.
  intros [n Hdisj] Hat. enough_depth (S n).
  rewrite cond_S. by_run Hdisj. rewrite Hat. reflexivity.
Qed.

Lemma runs_cond_step self l s1 s2 r s3 :
  runs disj self l s1 -> at_token IMPLIES s1 = true ->
  _advance s1 = Return s2 -> runs cond s2 r s3 ->
  runs cond self (Implies l r) s3.
Proof.
  intros [n1 Hdisj] Hat Hadv [n2 Hcond]. enough_depth (S (n1 + n2)).
  rewrite cond_S. by_run Hdisj. rewrite Hat, Hadv, bind_Return.
  by_run Hcond. reflexivity.
Qed.

Lemma runs_bic_stop self p s1 :
  runs cond self p s1 -> at_token IFF s1 = false -> runs bic self p s1.
Proof.
  intros [n Hcond] Hat. enough_depth (S n).
  rewrite bic_S. by_run Hcond. rewrite Hat. reflexivity.
Qed.

Lemma runs_bic_step self l s1 s2 r s3 :
  runs cond self l s1 -> at_token IFF s1 = true ->
  _advance s1 = Return s2 -> runs bic s2 r s3 ->
  runs bic self (Iff l r) s3.
Proof.
  intros [n1 Hcond] Hat Hadv [n2 Hbic]. enough_depth (S (n1 + n2)).
  rewrite bic_S. by_run Hcond. rewrite Hat, Hadv, bind_Return.
  by_run Hbic. reflexivity.
Qed.

(** A run of [bic] on the parser that [__init__] builds is a result of
    [prop]. *)
Lemma prop_of_run text ty v stream p self' :
  feed text = Return (mk_Parser stream (Some ty) v) ->
  runs bic (mk_Parser stream (Some ty) v) p self' ->
  prop text = Return p.
Proof.
  intros Hfeed [n Hbic]. apply (prop_within_Return n).
  unfold prop_within, _Parser_init. unfold feed, _advance in Hfeed.
  simpl in Hfeed.
  destruct (_lex text) as [[[[ty' v'] rest]|]| |]; simplify_eq/=.
  rewrite Hbic by lia. reflexivity.
Qed.

(** ** Rules for the operand levels *)

Lemma runs_conj_single self p s1 :
  runs neg self p s1 -> at_token AND s1 = false -> runs conj self p s1.
Proof.
  intros Hneg Hat. eapply runs_conj; [exact Hneg|].
  apply runs_conj_while_stop. exact Hat.
Qed.

Lemma runs_disj_single self p s1 :
  runs conj self p s1 -> at_token OR s1 = false -> runs disj self p s1.
Proof.
  intros Hconj Hat. eapply runs_disj; [exact Hconj|].
  apply runs_disj_while_stop. exact Hat.
Qed.

Lemma runs_conj_pair self l s1 s2 r s3 :
  runs neg self l s1 -> at_token AND s1 = true -> _advance s1 = Return s2 ->
  runs neg s2 r s3 -> at_token AND s3 = false ->
  runs conj self (And l r) s3.
Proof.
  intros Hl Hat Hadv Hr Hstop. eapply runs_conj; [exact Hl|].
  eapply runs_conj_while_step; [exact Hat | exact Hadv | exact Hr|].
  apply runs_conj_while_stop. exact Hstop.
Qed.

Lemma runs_disj_pair self l s1 s2 r s3 :
  runs conj self l s1 -> at_token OR s1 = true -> _advance s1 = Return s2 ->
  runs conj s2 r s3 -> at_token OR s3 = false ->
  runs disj self (Or l r) s3.
Proof.
  intros Hl Hat Hadv Hr Hstop. eapply runs_disj; [exact Hl|].
  eapply runs_disj_while_step; [exact Hat | exact Hadv | exact Hr|].
  apply runs_disj_while_stop. exact Hstop.
Qed.

(** Lifting an operand through the levels above it, as long as the token
    that follows is not the operator of the level. *)
Ltac as_conj H := eapply runs_conj_single; [exact H | reflexivity].
Ltac as_disj H := eapply runs_disj_single; [as_conj H | reflexivity].
Ltac as_cond H := eapply runs_cond_stop; [as_disj H | reflexivity].
Ltac as_bic H := eapply runs_bic_stop; [as_cond H | reflexivity].

(** ** Rendered formulas parse back *)

Lemma append_cons x (a b : string) : String x a +:+ b = String x (a +:+ b).
Proof. reflexivity. Qed.

Lemma append_assoc (a b c : string) : (a +:+ b) +:+ c = a +:+ (b +:+ c).
Proof.
  induction a as [|x a IH]; [reflexivity|].
  rewrite !append_cons. f_equal. exact IH.
Qed.

Lemma append_empty_r (a : string) : a +:+ "" = a.
Proof.
  induction a as [|x a IH]; [reflexivity|].
  rewrite append_cons. f_equal. exact IH.
Qed.

Lemma neg_to_string t :
  names_ok t = true ->
  forall rest after, boundary rest = true -> feed rest = Return after ->
  exists stream ty v,
    feed (to_string t +:+ rest) = Return (mk_Parser stream (Some ty) v)
    /\ runs neg (mk_Parser stream (Some ty) v) t after.
Proof.
  induction t as [name|x IHx|l IHl r IHr|l IHl r IHr|l IHl r IHr|l IHl r IHr];
    simpl names_ok; intros Hok rest after Hb Hrest.
  - exists rest, IDENT, name. split; [apply feed_identifier; assumption|].
    apply runs_neg_unit; [reflexivity|].
    apply (runs_unit_ident (mk_Parser rest (Some IDENT) name)); [reflexivity|exact Hrest].
  - destruct (IHx Hok rest after Hb Hrest) as (stream & ty & v & Hfeed & Hrun).
    exists (to_string x +:+ rest), NOT, "~". split; [reflexivity|].
    eapply runs_neg_not; [reflexivity | exact Hfeed | exact Hrun].
  - apply andb_true_iff in Hok as [Hl Hr].
    destruct (IHr Hr (")" +:+ rest) (mk_Parser rest (Some RPARENS) ")")
                eq_refl eq_refl) as (sr & tr & vr & Hfr & Hrr).
    destruct (IHl Hl (" & " +:+ to_string r +:+ ")" +:+ rest)
                (mk_Parser (" " +:+ to_string r +:+ ")" +:+ rest) (Some AND) "&")
                eq_refl eq_refl) as (sl & tl & vl & Hfl & Hrl).
    eexists _, LPARENS, "(". split.
    { simpl to_string. rewrite !append_assoc. reflexivity. }
    apply runs_neg_unit; [reflexivity|].
    eapply (runs_unit_parens _ _ _ (mk_Parser rest (Some RPARENS) ")"));
      [reflexivity | exact Hfl | | reflexivity | exact Hrest].
    eapply runs_bic_stop; [|reflexivity].
    eapply runs_cond_stop; [|reflexivity].
    eapply runs_disj_single; [|reflexivity].
    eapply runs_conj_pair; [exact Hrl | reflexivity | exact Hfr | exact Hrr | reflexivity].
  - apply andb_true_iff in Hok as [Hl Hr].
    destruct (IHr Hr (")" +:+ rest) (mk_Parser rest (Some RPARENS) ")")
                eq_refl eq_refl) as (sr & tr & vr & Hfr & Hrr).
    destruct (IHl Hl (" | " +:+ to_string r +:+ ")" +:+ rest)
                (mk_Parser (" " +:+ to_string r +:+ ")" +:+ rest) (Some OR) "|")
                eq_refl eq_refl) as (sl & tl & vl & Hfl & Hrl).
    eexists _, LPARENS, "(". split.
    { simpl to_string. rewrite !append_assoc. reflexivity. }
    apply runs_neg_unit; [reflexivity|].
    eapply (runs_unit_parens _ _ _ (mk_Parser rest (Some RPARENS) ")"));
      [reflexivity | exact Hfl | | reflexivity | exact Hrest].
    eapply runs_bic_stop; [|reflexivity].
    eapply runs_cond_stop; [|reflexivity].
    eapply runs_disj_pair;
      [as_conj Hrl | reflexivity | exact Hfr | as_conj Hrr | reflexivity].
  - apply andb_true_iff in Hok as [Hl Hr].
    destruct (IHr Hr (")" +:+ rest) (mk_Parser rest (Some RPARENS) ")")
                eq_refl eq_refl) as (sr & tr & vr & Hfr & Hrr).
    destruct (IHl Hl (" -> " +:+ to_string r +:+ ")" +:+ rest)
                (mk_Parser (" " +:+ to_string r +:+ ")" +:+ rest) (Some IMPLIES) "->")
                eq_refl eq_refl) as (sl & tl & vl & Hfl & Hrl).
    eexists _, LPARENS, "(". split.
    { simpl to_string. rewrite !append_assoc. reflexivity. }
    apply runs_neg_unit; [reflexivity|].
    eapply (runs_unit_parens _ _ _ (mk_Parser rest (Some RPARENS) ")"));
      [reflexivity | exact Hfl | | reflexivity | exact Hrest].
    eapply runs_bic_stop; [|reflexivity].
    eapply runs_cond_step; [as_disj Hrl | reflexivity | exact Hfr | as_cond Hrr].
  - apply andb_true_iff in Hok as [Hl Hr].
    destruct (IHr Hr (")" +:+ rest) (mk_Parser rest (Some RPARENS) ")")
                eq_refl eq_refl) as (sr & tr & vr & Hfr & Hrr).
    destruct (IHl Hl (" <-> " +:+ to_string r +:+ ")" +:+ rest)
                (mk_Parser (" " +:+ to_string r +:+ ")" +:+ rest) (Some IFF) "<->")
                eq_refl eq_refl) as (sl & tl & vl & Hfl & Hrl).
    eexists _, LPARENS, "(". split.
    { simpl to_string. rewrite !append_assoc. reflexivity. }
    apply runs_neg_unit; [reflexivity|].
    eapply (runs_unit_parens _ _ _ (mk_Parser rest (Some RPARENS) ")"));
      [reflexivity | exact Hfl | | reflexivity | exact Hrest].
    eapply runs_bic_step; [as_cond Hrl | reflexivity | exact Hfr | as_bic Hrr].
Qed.

Lemma bic_to_string t :
  names_ok t = true ->
  exists stream ty v,
    feed (to_string t) = Return (mk_Parser stream (Some ty) v)
    /\ runs bic (mk_Parser stream (Some ty) v) t (mk_Parser "" None "").
Proof.
  intros Hok.
  destruct (neg_to_string t Hok "" (mk_Parser "" None "") eq_refl eq_refl)
    as (stream & ty & v & Hfeed & Hrun).
  rewrite append_empty_r in Hfeed.
  exists stream, ty, v. split; [exact Hfeed | as_bic Hrun].
Qed.

(** The rendering agrees with the expectations of [TestStr] in
    [tests/test_core.py]. *)
Lemma to_string_tests :
  to_string (Not (Not (Not (Not (Predicate "p"))))) = "~~~~p"
  /\ to_string (Implies (And (Implies (Predicate "p") (Predicate "q")) (Predicate "p"))
                  (Predicate "q"))
     = "(((p -> q) & p) -> q)"
  /\ to_string (Iff (Iff (Predicate "p") (Predicate "q"))
                  (And (Implies (Predicate "p") (Predicate "q"))
                       (Implies (Predicate "q") (Predicate "p"))))
     = "((p <-> q) <-> ((p -> q) & (q -> p)))"
  /\ to_string (Iff (Iff (Predicate "p") (Predicate "q"))
                  (Or (And (Predicate "p") (Predicate "q"))
                      (And (Not (Predicate "p")) (Not (Predicate "q")))))
     = "((p <-> q) <-> ((p & q) | (~p & ~q)))"
  /\ (forall a b,
        to_string (And (Predicate a) (Predicate b)) = "(" +:+ a +:+ " & " +:+ b +:+ ")"
        /\ to_string (Or (Predicate a) (Predicate b)) = "(" +:+ a +:+ " | " +:+ b +:+ ")"
        /\ to_string (Implies (Predicate a) (Predicate b))
           = "(" +:+ a +:+ " -> " +:+ b +:+ ")"
        /\ to_string (Iff (Predicate a) (Predicate b))
           = "(" +:+ a +:+ " <-> " +:+ b +:+ ")").
Proof. repeat split; reflexivity. Qed.

(** C6 (round trip).  For every formula whose leaves are all named by
    identifiers, parsing its canonical rendering with [prop] returns the
    formula itself. *)
Theorem C6_parse_of_rendering t :
  names_ok t = true -> prop (to_string t) = Return t.
Proof.
  intros Hok. destruct (bic_to_string t Hok) as (stream & ty & v & Hfeed & Hrun).
  eapply prop_of_run; [exact Hfeed | exact Hrun].
Qed.

Lemma C6_parse_of_rendering_witness :
  names_ok (Iff (Iff (Predicate "p") (Predicate "q"))
              (Or (And (Predicate "p") (Predicate "q"))
                  (And (Not (Predicate "p")) (Not (Predicate "q"))))) = true
  /\ prop "((p <-> q) <-> ((p & q) | (~p & ~q)))"
     = Return (Iff (Iff (Predicate "p") (Predicate "q"))
                 (Or (And (Predicate "p") (Predicate "q"))
                     (And (Not (Predicate "p")) (Not (Predicate "q"))))).
Proof.
  split; [reflexivity|].
  apply (C6_parse_of_rendering
           (Iff (Iff (Predicate "p") (Predicate "q"))
              (Or (And (Predicate "p") (Predicate "q"))
                  (And (Not (Predicate "p")) (Not (Predicate "q")))))).
  reflexivity.
Defined.

(** ** Precedence and associativity *)

Lemma feed_space rest : feed (" " +:+ rest) = feed rest.
Proof. reflexivity. Qed.

Lemma feed_symbol o rest :
  feed (" " +:+ symbol o +:+ rest)
  = Return (mk_Parser rest (Some (op_token o)) (symbol o)).
Proof. destruct o; reflexivity. Qed.

(** Search for the derivation of a run from the runs of the operands and
    the moves between them, which are among the hypotheses. *)
Ltac drive_conj_while :=
  first [ eapply runs_conj_while_step;
            [reflexivity | eassumption | eassumption | drive_conj_while]
        | eapply runs_conj_while_stop; reflexivity ].
Ltac drive_conj := eapply runs_conj; [eassumption | drive_conj_while].
Ltac drive_disj_while :=
  first [ eapply runs_disj_while_step;
            [reflexivity | eassumption | drive_conj | drive_disj_while]
        | eapply runs_disj_while_stop; reflexivity ].
Ltac drive_disj := eapply runs_disj; [drive_conj | drive_disj_while].
Ltac drive_cond :=
  first [ eapply runs_cond_step; [drive_disj | reflexivity | eassumption | drive_cond]
        | eapply runs_cond_stop; [drive_disj | reflexivity] ].
Ltac drive_bic :=
  first [ eapply runs_bic_step; [drive_cond | reflexivity | eassumption | drive_bic]
        | eapply runs_bic_stop; [drive_cond | reflexivity] ].

Lemma prop_two_connectives o1 o2 a b c :
  names_ok a = true -> names_ok b = true -> names_ok c = true ->
  prop (to_string a +:+ " " +:+ symbol o1 +:+ " " +:+ to_string b
        +:+ " " +:+ symbol o2 +:+ " " +:+ to_string c)
  = Return (if groups_left o1 o2 then node o2 (node o1 a b) c
            else node o1 a (node o2 b c)).
Proof.
  intros Ha Hb Hc.
  destruct (neg_to_string c Hc "" (mk_Parser "" None "") eq_refl eq_refl)
    as (sc & tc & vc & Hfc & Hrc).
  rewrite append_empty_r in Hfc.
  destruct (neg_to_string b Hb (" " +:+ symbol o2 +:+ " " +:+ to_string c)
              (mk_Parser (" " +:+ to_string c) (Some (op_token o2)) (symbol o2))
              eq_refl (feed_symbol _ _))
    as (sb & tb & vb & Hfb & Hrb).
  destruct (neg_to_string a Ha
              (" " +:+ symbol o1 +:+ " " +:+ to_string b
               +:+ " " +:+ symbol o2 +:+ " " +:+ to_string c)
              (mk_Parser (" " +:+ to_string b +:+ " " +:+ symbol o2 +:+ " " +:+ to_string c)
                 (Some (op_token o1)) (symbol o1))
              eq_refl (feed_symbol _ _))
    as (sa & ta & va & Hfa & Hra).
  eapply prop_of_run; [exact Hfa|].
  change (feed (to_string c) = Return (mk_Parser sc (Some tc) vc))
    with (_advance (mk_Parser (" " +:+ to_string c) (Some (op_token o2)) (symbol o2))
          = Return (mk_Parser sc (Some tc) vc)) in Hfc.
  change (_advance
            (mk_Parser (" " +:+ to_string b +:+ " " +:+ symbol o2 +:+ " " +:+ to_string c)
                 (Some (op_token o1)) (symbol o1))
          = Return (mk_Parser sb (Some tb) vb)) in Hfb.
  destruct o1, o2; simpl; drive_bic.
Qed.

Lemma operand_in_chain o b bs :
  names_ok b = true ->
  exists stream ty v,
    feed (to_string b +:+ chain_tail o bs) = Return (mk_Parser stream (Some ty) v)
    /\ runs neg (mk_Parser stream (Some ty) v) b (tail_state o bs).
Proof.
  intros Hb. apply neg_to_string; [exact Hb | |].
  - destruct bs; reflexivity.
  - destruct bs as [|b' bs']; [reflexivity|]. apply feed_symbol.
Qed.

Lemma conj_while_chain bs :
  forallb names_ok bs = true ->
  forall c, runs (fun n => conj_while n c) (tail_state conn_and bs)
              (nest_left conn_and c bs) (mk_Parser "" None "").
Proof.
  induction bs as [|b bs IH]; simpl forallb; intros Hbs c.
  - apply runs_conj_while_stop. reflexivity.
  - apply andb_true_iff in Hbs as [Hb Hbs].
    destruct (operand_in_chain conn_and b bs Hb) as (sb & tb & vb & Hfb & Hrb).
    eapply runs_conj_while_step; [reflexivity | exact Hfb | exact Hrb|].
    apply (IH Hbs).
Qed.

Lemma disj_while_chain bs :
  forallb names_ok bs = true ->
  forall c, runs (fun n => disj_while n c) (tail_state conn_or bs)
              (nest_left conn_or c bs) (mk_Parser "" None "").
Proof.
  induction bs as [|b bs IH]; simpl forallb; intros Hbs c.
  - apply runs_disj_while_stop. reflexivity.
  - apply andb_true_iff in Hbs as [Hb Hbs].
    destruct (operand_in_chain conn_or b bs Hb) as (sb & tb & vb & Hfb & Hrb).
    eapply runs_disj_while_step; [reflexivity | exact Hfb | |apply (IH Hbs)].
    eapply runs_conj_single; [exact Hrb|]. destruct bs; reflexivity.
Qed.

Lemma cond_chain bs :
  forallb names_ok bs = true ->
  forall a self, runs neg self a (tail_state conn_implies bs) ->
    runs cond self (nest_right conn_implies a bs) (mk_Parser "" None "").
Proof.
  induction bs as [|b bs IH]; simpl forallb; intros Hbs a self Ha.
  - as_cond Ha.
  - apply andb_true_iff in Hbs as [Hb Hbs].
    destruct (operand_in_chain conn_implies b bs Hb) as (sb & tb & vb & Hfb & Hrb).
    eapply runs_cond_step; [as_disj Ha | reflexivity | exact Hfb|].
    apply (IH Hbs). exact Hrb.
Qed.

Lemma bic_chain bs :
  forallb names_ok bs = true ->
  forall a self, runs neg self a (tail_state conn_iff bs) ->
    runs bic self (nest_right conn_iff a bs) (mk_Parser "" None "").
Proof.
  induction bs as [|b bs IH]; simpl forallb; intros Hbs a self Ha.
  - as_bic Ha.
  - apply andb_true_iff in Hbs as [Hb Hbs].
    destruct (operand_in_chain conn_iff b bs Hb) as (sb & tb & vb & Hfb & Hrb).
    eapply runs_bic_step; [as_cond Ha | reflexivity | exact Hfb|].
    apply (IH Hbs). exact Hrb.
Qed.

Lemma prop_chain o a bs :
  names_ok a = true -> forallb names_ok bs = true ->
  prop (to_string a +:+ chain_tail o bs)
  = Return (if left_assoc o then nest_left o a bs else nest_right o a bs).
Proof.
  intros Ha Hbs.
  destruct (operand_in_chain o a bs Ha) as (sa & ta & va & Hfa & Hra).
  eapply prop_of_run with (self' := mk_Parser "" None ""); [exact Hfa|].
  destruct o; simpl left_assoc; cbv iota.
  - eapply runs_bic_stop; [|reflexivity].
    eapply runs_cond_stop; [|reflexivity].
    eapply runs_disj_single; [|reflexivity].
    eapply runs_conj; [exact Hra | apply conj_while_chain; exact Hbs].
  - eapply runs_bic_stop; [|reflexivity].
    eapply runs_cond_stop; [|reflexivity].
    eapply runs_disj; [|apply disj_while_chain; exact Hbs].
    eapply runs_conj_single; [exact Hra|]. destruct bs; reflexivity.
  - eapply runs_bic_stop; [|reflexivity].
    apply cond_chain; assumption.
  - apply bic_chain; assumption.
Qed.

Lemma prop_negated_operand o a b :
  names_ok a = true -> names_ok b = true ->
  prop ("~" +:+ to_string a +:+ " " +:+ symbol o +:+ " " +:+ to_string b)
  = Return (node o (Not a) b).
Proof.
  intros Ha Hb.
  pose proof (prop_chain o (Not a) [b] Ha) as H.
  simpl forallb in H. rewrite Hb in H. specialize (H eq_refl).
  simpl chain_tail in H. rewrite append_empty_r in H.
  simpl to_string in H. rewrite append_assoc in H.
  rewrite H. destruct o; reflexivity.
Qed.

(** C3 (precedence and associativity).  With operands in rendered form
    (leaves, negations, parenthesised formulas): in [a o1 b o2 c] the
    connective of the tighter rule groups first ([&], then [|], then [->],
    then [<->]), two equal connectives group to the left for [&] and [|]
    and to the right for [->] and [<->]; a leading [~] belongs to the first
    operand alone; a chain of one connective of any length nests to the
    left for [&] and [|] and to the right for [->] and [<->]; and the two
    texts [p & q | r] and [p -> q -> r] parse as stated. *)
Theorem C3_precedence_and_associativity :
  (forall o1 o2 a b c,
      names_ok a = true -> names_ok b = true -> names_ok c = true ->
      prop (to_string a +:+ " " +:+ symbol o1 +:+ " " +:+ to_string b
            +:+ " " +:+ symbol o2 +:+ " " +:+ to_string c)
      = Return (if groups_left o1 o2 then node o2 (node o1 a b) c
                else node o1 a (node o2 b c)))
  /\ (forall o a b,
      names_ok a = true -> names_ok b = true ->
      prop ("~" +:+ to_string a +:+ " " +:+ symbol o +:+ " " +:+ to_string b)
      = Return (node o (Not a) b))
  /\ (forall o a bs,
      names_ok a = true -> forallb names_ok bs = true ->
      prop (to_string a +:+ chain_tail o bs)
      = Return (if left_assoc o then nest_left o a bs else nest_right o a bs))
  /\ prop "p & q | r"
     = Return (Or (And (Predicate "p") (Predicate "q")) (Predicate "r"))
  /\ prop "p -> q -> r"
     = Return (Implies (Predicate "p") (Implies (Predicate "q") (Predicate "r"))).
Proof.
  split; [exact prop_two_connectives|].
  split; [exact prop_negated_operand|].
  split; [exact prop_chain|].
  split; reflexivity.
Qed.

Lemma C3_precedence_and_associativity_witness :
  prop "p | q & (r -> s)"
  = Return (Or (Predicate "p")
              (And (Predicate "q") (Implies (Predicate "r") (Predicate "s"))))
  /\ prop "~p <-> q" = Return (Iff (Not (Predicate "p")) (Predicate "q"))
  /\ prop "a & b & c & d"
     = Return (And (And (And (Predicate "a") (Predicate "b")) (Predicate "c"))
                 (Predicate "d"))
  /\ prop "a -> b -> c -> d"
     = Return (Implies (Predicate "a")
                 (Implies (Predicate "b") (Implies (Predicate "c") (Predicate "d")))).
Proof.
  destruct C3_precedence_and_associativity as (Hpair & Hneg & Hchain & _).
  split.
  { apply (Hpair conn_or conn_and (Predicate "p") (Predicate "q")
             (Implies (Predicate "r") (Predicate "s"))); reflexivity. }
  split.
  { apply (Hneg conn_iff (Predicate "p") (Predicate "q")); reflexivity. }
  split.
  { apply (Hchain conn_and (Predicate "a")
             [Predicate "b"; Predicate "c"; Predicate "d"]); reflexivity. }
  apply (Hchain conn_implies (Predicate "a")
           [Predicate "b"; Predicate "c"; Predicate "d"]); reflexivity.
Defined.

(** ** Text behind a complete formula *)

Lemma stray_inv sfx :
  stray sfx = true ->
  boundary sfx = true
  /\ exists ty v rest, _lex sfx = Return (Some ((ty, v), rest))
                       /\ binary_token ty = false.
Proof.
  unfold stray. intros H. apply andb_true_iff in H as [Hb H]. split; [exact Hb|].
  destruct (_lex sfx) as [[[[ty v] rest]|]| |]; try discriminate.
  exists ty, v, rest. split; [reflexivity|]. apply negb_true_iff. exact H.
Qed.

Lemma unit_at_end n self r :
  _current_token_type self = None -> unit n self <> Return r.
Proof.
  intros Hend. destruct n as [|n]; [discriminate|].
  rewrite unit_S. unfold at_token, unit_raise. rewrite Hend. simpl. discriminate.
Qed.

Lemma neg_at_end n self r :
  _current_token_type self = None -> neg n self <> Return r.
Proof.
  intros Hend. destruct n as [|n]; [discriminate|].
  rewrite neg_S. unfold at_token. rewrite Hend. simpl.
  apply unit_at_end. exact Hend.
Qed.

Lemma bind_not_Return {A B} (m : outcome A) (f : A -> outcome B) r :
  (forall a, m <> Return a) -> m ≫= f <> Return r.
Proof. intros Hm H. bind_inv H. exact (Hm _ Ha). Qed.

Lemma conj_at_end n self r :
  _current_token_type self = None -> conj n self <> Return r.
Proof.
  intros Hend. destruct n as [|n]; [discriminate|].
  rewrite conj_S. apply bind_not_Return. intros a. apply neg_at_end. exact Hend.
Qed.

Lemma disj_at_end n self r :
  _current_token_type self = None -> disj n self <> Return r.
Proof.
  intros Hend. destruct n as [|n]; [discriminate|].
  rewrite disj_S. apply bind_not_Return. intros a. apply conj_at_end. exact Hend.
Qed.

Lemma cond_at_end n self r :
  _current_token_type self = None -> cond n self <> Return r.
Proof.
  intros Hend. destruct n as [|n]; [discriminate|].
  rewrite cond_S. apply bind_not_Return. intros a. apply disj_at_end. exact Hend.
Qed.

Lemma bic_at_end n self r :
  _current_token_type self = None -> bic n self <> Return r.
Proof.
  intros Hend. destruct n as [|n]; [discriminate|].
  rewrite bic_S. apply bind_not_Return. intros a. apply cond_at_end. exact Hend.
Qed.

Section StrayText.

(** The text behind the formula, fixed for the section. *)
Variable sfx : string.
Hypothesis Hstray : stray sfx = true.

Lemma ident_tail_append it parts rest :
  ident_tail it = (parts, rest) ->
  ident_tail (it +:+ sfx) = (parts, rest +:+ sfx).
Proof.
  destruct (stray_inv _ Hstray) as (Hb & _).
  revert parts rest. induction it as [|c it IH]; intros parts rest H.
  - simpl in H. simplify_eq. change ("" +:+ sfx) with sfx.
    apply ident_tail_at_boundary. exact Hb.
  - rewrite append_cons. simpl in H |- *.
    destruct (isalnum c || Ascii.eqb c "_").
    + destruct (ident_tail it) as [p' r'] eqn:E. simplify_eq.
      rewrite (IH _ _ eq_refl). reflexivity.
    + simplify_eq. reflexivity.
Qed.

Lemma _lex_accept_append it expected it' :
  _lex_accept it expected = Return it' ->
  _lex_accept (it +:+ sfx) expected = Return (it' +:+ sfx).
Proof.
  destruct it as [|c it]; simpl; [discriminate|].
  destruct (Ascii.eqb c expected); [|discriminate].
  intros [= <-]. reflexivity.
Qed.

Lemma _lex_append_yield text tok rest :
  _lex text = Return (Some (tok, rest)) ->
  _lex (text +:+ sfx) = Return (Some (tok, rest +:+ sfx)).
Proof.
  induction text as [|c it IH]; [discriminate|].
  rewrite append_cons. simpl.
  repeat case_match; intros E; simplify_eq/=; try reflexivity.
  - bind_inv E. rewrite (_lex_accept_append _ _ _ Ha). simplify_eq/=. reflexivity.
  - bind_inv E. bind_inv E.
    rewrite (_lex_accept_append _ _ _ Ha). simpl.
    rewrite (_lex_accept_append _ _ _ Ha0). simplify_eq/=. reflexivity.
  - apply IH. exact E.
  - match goal with
    | H : ident_tail it = _, H' : ident_tail (it +:+ sfx) = _ |- _ =>
        rewrite (ident_tail_append _ _ _ H) in H'; simplify_eq
    end.
    reflexivity.
Qed.

Lemma _lex_append_stop text :
  _lex text = Return None -> _lex (text +:+ sfx) = _lex sfx.
Proof.
  induction text as [|c it IH]; [reflexivity|].
  rewrite append_cons. simpl.
  repeat case_match; intros E; simplify_eq/=; try discriminate.
  - bind_inv E. discriminate.
  - bind_inv E. bind_inv E. discriminate.
  - apply IH. exact E.
Qed.

Lemma follows_advance s1 s2 ty s1' :
  follows sfx s1 s2 ->
  at_token ty s1 = true -> _advance s1 = Return s1' ->
  exists s2', _advance s2 = Return s2' /\ follows sfx s1' s2'.
Proof.
  intros Hf Hat Hadv. destruct Hf as [stream ty0 v0|ty0 v0 rest0 Hlex].
  - unfold _advance in *. simpl in *. bind_inv Hadv.
    destruct a as [[[ty' v'] rest]|]; simplify_eq/=.
    + rewrite (_lex_append_yield _ _ _ Ha). simpl.
      eexists; split; [reflexivity | constructor].
    + rewrite (_lex_append_stop _ Ha).
      destruct (stray_inv _ Hstray) as (_ & ty1 & v1 & rest1 & Hlex & _).
      rewrite Hlex. simpl. eexists; split; [reflexivity|].
      constructor. exact Hlex.
  - discriminate Hat.
Qed.

Lemma follows_at_token_true s1 s2 ty :
  follows sfx s1 s2 -> at_token ty s1 = true -> at_token ty s2 = true.
Proof. intros [stream ty0 v0|ty0 v0 rest0 Hlex] H; [exact H | discriminate H]. Qed.

Lemma follows_at_token_binary s1 s2 ty :
  follows sfx s1 s2 -> binary_token ty = true ->
  at_token ty s2 = at_token ty s1.
Proof.
  intros [stream ty0 v0|ty0 v0 rest0 Hlex] Hty; [reflexivity|].
  destruct (stray_inv _ Hstray) as (_ & ty1 & v1 & rest1 & Hlex1 & Hb).
  rewrite Hlex in Hlex1. simplify_eq. unfold at_token. simpl.
  apply bool_decide_eq_false_2. intros [= ->]. congruence.
Qed.

Ltac carry_call IH H Hf :=
  let p1 := fresh "p" in let s1y := fresh "s1" in let Hc := fresh "Hc" in
  let s2y := fresh "s2" in let Hc2 := fresh "Hc2" in let Hf2 := fresh "Hf" in
  apply bind_Return_inv in H; destruct H as ([p1 s1y] & Hc & H);
  destruct (IH _ _ _ _ Hf Hc) as (s2y & Hc2 & Hf2);
  rewrite Hc2, bind_Return; cbv beta iota in H |- *; clear Hc Hc2.

Ltac carry_advance H Hf Hat :=
  let s1y := fresh "s1" in let Hc := fresh "Hc" in
  let s2y := fresh "s2" in let Hc2 := fresh "Hc2" in let Hf2 := fresh "Hf" in
  rewrite (follows_at_token_true _ _ _ Hf Hat);
  apply bind_Return_inv in H; destruct H as (s1y & Hc & H);
  destruct (follows_advance _ _ _ _ Hf Hat Hc) as (s2y & Hc2 & Hf2);
  rewrite Hc2, bind_Return; clear Hc Hc2.

Ltac carry_done H :=
  injection H as <- <-; eexists; split; [reflexivity | assumption].

Lemma methods_carry n :
  carries sfx (bic n) /\ carries sfx (cond n) /\ carries sfx (disj n)
  /\ (forall c, carries sfx (disj_while n c))
  /\ carries sfx (conj n) /\ (forall c, carries sfx (conj_while n c))
  /\ carries sfx (neg n) /\ carries sfx (unit n).
Proof.
  induction n as [|n (IHbic & IHcond & IHdisj & IHdw & IHconj & IHcw & IHneg & IHunit)].
  { repeat split; intros; intros ? ? ? ? ? ?; discriminate. }
  repeat split; [| | |intros c| |intros c| |]; intros s1 s2 p s1' Hf H.
  - (* bic *)
    rewrite bic_S in H |- *. carry_call IHcond H Hf.
    destruct (at_token IFF s0) eqn:Hat.
    + carry_advance H Hf0 Hat. carry_call IHbic H Hf1. carry_done H.
    + rewrite (follows_at_token_binary _ _ IFF Hf0 eq_refl), Hat. carry_done H.
  - (* cond *)
    rewrite cond_S in H |- *. carry_call IHdisj H Hf.
    destruct (at_token IMPLIES s0) eqn:Hat.
    + carry_advance H Hf0 Hat. carry_call IHcond H Hf1. carry_done H.
    + rewrite (follows_at_token_binary _ _ IMPLIES Hf0 eq_refl), Hat. carry_done H.
  - (* disj *)
    rewrite disj_S in H |- *. carry_call IHconj H Hf.
    eapply IHdw; eassumption.
  - (* disj_while *)
    rewrite disj_while_S in H |- *.
    destruct (at_token OR s1) eqn:Hat.
    + carry_advance H Hf Hat. carry_call IHconj H Hf0.
      eapply IHdw; eassumption.
    + rewrite (follows_at_token_binary _ _ OR Hf eq_refl), Hat. carry_done H.
  - (* conj *)
    rewrite conj_S in H |- *. carry_call IHneg H Hf.
    eapply IHcw; eassumption.
  - (* conj_while *)
    rewrite conj_while_S in H |- *.
    destruct (at_token AND s1) eqn:Hat.
    + carry_advance H Hf Hat. carry_call IHneg H Hf0.
      eapply IHcw; eassumption.
    + rewrite (follows_at_token_binary _ _ AND Hf eq_refl), Hat. carry_done H.
  - (* neg *)
    destruct Hf as [stream ty v|ty v rest Hlex];
      [|exfalso; exact (neg_at_end _ (mk_Parser "" None "") _ eq_refl H)].
    rewrite neg_S in H |- *.
    destruct (at_token NOT (mk_Parser stream (Some ty) v)) eqn:Hat.
    + pose proof (follows_sync sfx stream ty v) as Hf.
      carry_advance H Hf Hat. carry_call IHneg H Hf0. carry_done H.
    + change (at_token NOT (mk_Parser (stream +:+ sfx) (Some ty) v))
        with (at_token NOT (mk_Parser stream (Some ty) v)).
      rewrite Hat. eapply IHunit; [constructor | exact H].
  - (* unit *)
    destruct Hf as [stream ty v|ty v rest Hlex];
      [|exfalso; exact (unit_at_end _ (mk_Parser "" None "") _ eq_refl H)].
    rewrite unit_S in H |- *. cbv zeta in H |- *.
    pose proof (follows_sync sfx stream ty v) as Hf.
    destruct (at_token IDENT (mk_Parser stream (Some ty) v)) eqn:Hat.
    + carry_advance H Hf Hat. carry_done H.
    + change (at_token IDENT (mk_Parser (stream +:+ sfx) (Some ty) v))
        with (at_token IDENT (mk_Parser stream (Some ty) v)).
      rewrite Hat.
      destruct (at_token LPARENS (mk_Parser stream (Some ty) v)) eqn:Hat2.
      * carry_advance H Hf Hat2. carry_call IHbic H Hf0.
        destruct (at_token RPARENS s0) eqn:Hat3.
        -- carry_advance H Hf1 Hat3. carry_done H.
        -- exfalso. exact (unit_raise_not_Return _ _ H).
      * exfalso. exact (unit_raise_not_Return _ _ H).
Qed.

End StrayText.

(** When [prop] returns a formula for a text, it returns the same formula
    for that text followed by a stray text. *)
Lemma prop_ignores_stray_text text p sfx :
  prop text = Return p -> stray sfx = true -> prop (text +:+ sfx) = Return p.
Proof.
  unfold prop at 1. intros H Hs.
  apply (prop_within_Return (depth_bound text)).
  unfold prop_within, _Parser_init in H |- *.
  bind_inv H. bind_inv Ha.
  destruct a0 as [[[ty v] rest]|]; [|discriminate Ha].
  rewrite (_lex_append_yield sfx Hs _ _ _ Ha0). simpl. simplify_eq/=.
  bind_inv H. destruct a as [p' s1'].
  destruct (methods_carry sfx Hs (depth_bound text)) as (Hbic & _).
  destruct (Hbic _ _ _ _ (follows_sync sfx rest ty v) Ha) as (s2' & -> & _).
  exact H.
Qed.

(** C1, on the code.  [prop] is [_Parser(text).bic()] and nothing checks
    that the tokens are used up: on [p )], on [p q] and on [(p)q] the parse
    of [bic] is complete with a token left, and [prop] returns the leaf [p]
    instead of raising the unexpected-token error; more generally a formula
    returned for a text is returned again when a stray text (one that starts
    with no character of an identifier and whose first token is [)], [(],
    [~] or an identifier) is put behind the text.  None of these texts is
    derived by the rule [bic] of the grammar.  Inside parentheses the token
    left is reported: [unit] raises the unexpected-token error on [(p q)]. *)
Theorem C1_prop_returns_with_tokens_left :
  (forall text p sfx,
      prop text = Return p -> stray sfx = true -> prop (text +:+ sfx) = Return p)
  /\ (exists self self',
      _Parser_init "p )" = Return self
      /\ bic 8 self = Return (Predicate "p", self')
      /\ _current_token_type self' = Some RPARENS)
  /\ prop "p )" = Return (Predicate "p")
  /\ prop "p )" <> Raise (ValueError (_unexp_token ")"))
  /\ prop "p q" = Return (Predicate "p")
  /\ prop "p q" <> Raise (ValueError (_unexp_token "q"))
  /\ prop "(p)q" = Return (Predicate "p")
  /\ prop "(p))" = Return (Predicate "p")
  /\ prop "(p q)" = Raise (ValueError (_unexp_token "q")).
Proof.
  split; [exact prop_ignores_stray_text|].
  split.
  { eexists _, _. split; [reflexivity|]. split; reflexivity. }
  repeat split; try reflexivity; discriminate.
Qed.

Lemma C1_prop_returns_with_tokens_left_witness :
  prop "(p & q)" = Return (And (Predicate "p") (Predicate "q"))
  /\ stray ") | r -" = true
  /\ prop "(p & q)) | r -" = Return (And (Predicate "p") (Predicate "q")).
Proof.
  split; [reflexivity|]. split; [reflexivity|].
  apply (proj1 C1_prop_returns_with_tokens_left "(p & q)" _ ") | r -"); reflexivity.
Defined.

(** ** Empty and blank texts *)

(** C2, on the code.  For an empty or blank text the generator yields no
    token, and the [next] of [__init__], which has no default, lets
    [StopIteration] out of [prop]: not the [ValueError] with the
    end-of-string message.  The rule [unit] is not reached.  Where [unit] is
    reached at the end of the tokens, as after [(], it does raise that
    [ValueError]. *)
Theorem C2_blank_text_raises_StopIteration :
  (forall text, blank text = true -> prop text = Raise StopIteration)
  /\ prop "" = Raise StopIteration
  /\ prop "" <> Raise (ValueError _UNEXP_END_OF_STR)
  /\ prop "(" = Raise (ValueError _UNEXP_END_OF_STR).
Proof.
  split.
  { intros text Hb. apply (prop_within_Raise 0).
    unfold prop_within, _Parser_init. rewrite (_lex_blank _ Hb). reflexivity. }
  repeat split; try reflexivity; discriminate.
Qed.

Lemma C2_blank_text_raises_StopIteration_witness :
  blank (String " " (String "009" (String "010" ""))) = true
  /\ prop (String " " (String "009" (String "010" ""))) = Raise StopIteration.
Proof.
  split; [reflexivity|].
  apply (proj1 C2_blank_text_raises_StopIteration). reflexivity.
Defined.

(** ** The two-character and three-character connectives *)

(** C4.  After [-] the next character must be [>], after [<] the next two
    must be [-] and [>], looked at one at a time: the end of the text gives
    the end-of-string error, another character the unexpected-character
    error naming it.  In particular for ["-"], ["-x"] and ["<-x"]. *)
Theorem C4_arrows :
  (forall it,
      _lex (String "-" it) =
      match it with
      | EmptyString => Raise (ValueError _UNEXP_END_OF_STR)
      | String c it' =>
          if Ascii.eqb c ">" then Return (Some ((IMPLIES, "->"), it'))
          else Raise (ValueError (_unexp_char c))
      end)
  /\ (forall it,
      _lex (String "<" it) =
      match it with
      | EmptyString => Raise (ValueError _UNEXP_END_OF_STR)
      | String c it' =>
          if Ascii.eqb c "-" then
            match it' with
            | EmptyString => Raise (ValueError _UNEXP_END_OF_STR)
            | String d it'' =>
                if Ascii.eqb d ">" then Return (Some ((IFF, "<->"), it''))
                else Raise (ValueError (_unexp_char d))
            end
          else Raise (ValueError (_unexp_char c))
      end)
  /\ _lex "-" = Raise (ValueError "unexpected end of string")
  /\ _lex "-x" = Raise (ValueError "unexpected character 'x'")
  /\ _lex "<-x" = Raise (ValueError "unexpected character 'x'")
  /\ prop "-" = Raise (ValueError "unexpected end of string")
  /\ prop "-x" = Raise (ValueError "unexpected character 'x'")
  /\ prop "<-x" = Raise (ValueError "unexpected character 'x'")
  /\ prop "p <" = Raise (ValueError "unexpected end of string")
  /\ prop "p <- q" = Raise (ValueError "unexpected character ' '").
Proof.
  split.
  { intros [|c it]; [reflexivity|]. simpl. destruct (Ascii.eqb c ">"); reflexivity. }
  split.
  { intros [|c it]; [reflexivity|]. simpl.
    destruct (Ascii.eqb c "-"); [|reflexivity].
    destruct it as [|d it]; [reflexivity|]. simpl.
    destruct (Ascii.eqb d ">"); reflexivity. }
  repeat split; reflexivity.
Qed.

(** ** Identifier characters *)

Lemma isalpha_ascii c :
  (code c <? 128)%N = true -> isalpha c = ascii_letter c.
Proof.
  destruct c as [[] [] [] [] [] [] [] []]; vm_compute; intros H;
    first [discriminate H | reflexivity].
Qed.

Lemma isalnum_ascii c :
  (code c <? 128)%N = true -> isalnum c = ascii_letter c || ascii_digit c.
Proof.
  destruct c as [[] [] [] [] [] [] [] []]; vm_compute; intros H;
    first [discriminate H | reflexivity].
Qed.

Lemma _lex_unexpected c it :
  char_in c "~&|-<()" = false -> char_in c WHITESPACE = false ->
  (isalpha c || Ascii.eqb c "_") = false ->
  _lex (String c it) = Raise (ValueError (_unexp_char c)).
Proof.
  intros Hop Hws Hid. simpl in Hop.
  repeat (apply orb_false_iff in Hop as [? Hop]).
  simpl. simpl in Hws. repeat case_match; simplify_eq; try reflexivity.
Qed.

(** C5, on the code.  The identifier branch of [_lex] tests [c.isalpha()]
    and [c.isalnum()], which hold for letters and digits beyond ASCII: the
    one-character text U+00E9 is lexed as an IDENT token, and so is [p]
    followed by U+00B2, although neither matches the pattern
    [[A-Za-z_][A-Za-z0-9_]*]; no unexpected-character error is raised.  On
    code points below 128 the two tests accept the characters of the pattern
    and no other, and an identifier of the pattern followed by a boundary is
    lexed as one IDENT token. *)
Theorem C5_identifiers_beyond_ascii :
  is_identifier (String "233" "") = false
  /\ _lex (String "233" "") = Return (Some ((IDENT, String "233" ""), ""))
  /\ prop (String "233" "") = Return (Predicate (String "233" ""))
  /\ is_identifier (String "p" (String "178" "")) = false
  /\ _lex (String "p" (String "178" ""))
     = Return (Some ((IDENT, String "p" (String "178" "")), ""))
  /\ (forall c, (code c <? 128)%N = true ->
        (isalpha c || Ascii.eqb c "_") = ident_start c
        /\ (isalnum c || Ascii.eqb c "_") = ident_part c)
  /\ (forall x rest, is_identifier x = true -> boundary rest = true ->
        _lex (x +:+ rest) = Return (Some ((IDENT, x), rest)))
  /\ (forall c it,
        char_in c "~&|-<()" = false -> char_in c WHITESPACE = false ->
        (isalpha c || Ascii.eqb c "_") = false ->
        _lex (String c it) = Raise (ValueError (_unexp_char c))).
Proof.
  repeat split; try reflexivity.
  - rewrite (isalpha_ascii _ H). reflexivity.
  - rewrite (isalnum_ascii _ H). reflexivity.
  - intros; apply _lex_identifier; assumption.
  - intros; apply _lex_unexpected; assumption.
Qed.

Lemma C5_identifiers_beyond_ascii_witness :
  _lex "x_1 & y" = Return (Some ((IDENT, "x_1"), " & y"))
  /\ _lex "$" = Raise (ValueError "unexpected character '$'").
Proof.
  destruct C5_identifiers_beyond_ascii as (_ & _ & _ & _ & _ & _ & Hid & Hother).
  split.
  - apply (Hid "x_1" " & y"); reflexivity.
  - apply (Hother "$"%char ""); reflexivity.
Defined.

(** ** Evaluation *)

Lemma interpret_total u (interp : gmap string bool) (v : string -> bool) :
  (forall x, x ∈ atoms u -> interp !! x = Some (v x)) ->
  interpret u interp = Value (truth v u).
Proof.
  induction u as [name|x IHx|l IHl r IHr|l IHl r IHr|l IHl r IHr|l IHl r IHr];
    simpl; intros H.
  - rewrite (H name) by set_solver. reflexivity.
  - rewrite IHx by exact H. reflexivity.
  - rewrite IHl, IHr by (intros; apply H; set_solver).
    destruct (truth v l); reflexivity.
  - rewrite IHl, IHr by (intros; apply H; set_solver).
    destruct (truth v l); reflexivity.
  - rewrite IHl, IHr by (intros; apply H; set_solver).
    destruct (truth v l); reflexivity.
  - rewrite IHl, IHr by (intros; apply H; set_solver).
    reflexivity.
Qed.

(** The evaluation agrees with the table of
    [test_complex_atomic_missing] in [tests/test_core.py] for the five
    interpretations of [p & q], [p | q], [p -> q] and [p <-> q]. *)
Lemma interpret_tests :
  let p := Predicate "p" in
  let q := Predicate "q" in
  let fails (e : evaluation) := match e with Value _ => false | _ => true end in
  fails (interpret (And p q) ∅) = true
  /\ fails (interpret (And p q) {[ "p" := true ]}) = true
  /\ interpret (And p q) {[ "p" := false ]} = Value false
  /\ fails (interpret (And p q) {[ "q" := true ]}) = true
  /\ fails (interpret (And p q) {[ "q" := false ]}) = true
  /\ fails (interpret (Or p q) ∅) = true
  /\ interpret (Or p q) {[ "p" := true ]} = Value true
  /\ fails (interpret (Or p q) {[ "p" := false ]}) = true
  /\ fails (interpret (Or p q) {[ "q" := true ]}) = true
  /\ fails (interpret (Implies p q) {[ "p" := true ]}) = true
  /\ interpret (Implies p q) {[ "p" := false ]} = Value true
  /\ fails (interpret (Implies p q) {[ "q" := true ]}) = true
  /\ fails (interpret (Iff p q) {[ "p" := true ]}) = true
  /\ fails (interpret (Iff p q) {[ "p" := false ]}) = true
  /\ fails (interpret (Iff p q) {[ "q" := true ]}) = true
  /\ fails (interpret (Iff p q) {[ "q" := false ]}) = true.
Proof. repeat split; reflexivity. Qed.

(** C7.  A leaf whose name the interpretation lacks fails with the missing
    name.  [And] with a false left operand is false, [Or] with a true left
    operand is true, [Implies] with a false left operand is true, whatever
    the right operand is, also when it would fail.  [Iff] has a value exactly
    when both operands have one.  Under an interpretation that assigns every
    name of a formula, the result is the classical truth value; the four
    connectives have their truth tables. *)
Theorem C7_interpret :
  (forall name (interp : gmap string bool),
      interp !! name = None ->
      interpret (Predicate name) interp = MissingVariable name)
  /\ (forall l r interp,
      interpret l interp = Value false -> interpret (And l r) interp = Value false)
  /\ (forall l r interp,
      interpret l interp = Value true -> interpret (Or l r) interp = Value true)
  /\ (forall l r interp,
      interpret l interp = Value false -> interpret (Implies l r) interp = Value true)
  /\ (forall l r interp,
      (exists b, interpret (Iff l r) interp = Value b)
      <-> (exists a, interpret l interp = Value a)
          /\ (exists b, interpret r interp = Value b))
  /\ (forall u (interp : gmap string bool) v,
      (forall x, x ∈ atoms u -> interp !! x = Some (v x)) ->
      interpret u interp = Value (truth v u))
  /\ (forall a b : bool,
      let interp : gmap string bool := {[ "p" := a; "q" := b ]} in
      interpret (And (Predicate "p") (Predicate "q")) interp = Value (a && b)
      /\ interpret (Or (Predicate "p") (Predicate "q")) interp = Value (a || b)
      /\ interpret (Implies (Predicate "p") (Predicate "q")) interp = Value (implb a b)
      /\ interpret (Iff (Predicate "p") (Predicate "q")) interp = Value (eqb a b))
  /\ interpret (And (Predicate "p") (Predicate "q")) {[ "p" := false ]} = Value false
  /\ interpret (Or (Predicate "p") (Predicate "q")) {[ "p" := true ]} = Value true
  /\ interpret (Implies (Predicate "p") (Predicate "q")) {[ "p" := false ]} = Value true
  /\ interpret (Iff (Predicate "p") (Predicate "q")) {[ "p" := true ]}
     = MissingVariable "q"
  /\ interpret (Iff (Predicate "p") (Predicate "q")) {[ "q" := true ]}
     = MissingVariable "p"
  /\ interpret (Implies (Predicate "p") (Predicate "q")) {[ "p" := false; "q" := false ]}
     = Value true.
Proof.
  split. { intros name interp H. simpl. rewrite H. reflexivity. }
  split. { intros l r interp H. simpl. rewrite H. reflexivity. }
  split. { intros l r interp H. simpl. rewrite H. reflexivity. }
  split. { intros l r interp H. simpl. rewrite H. reflexivity. }
  split.
  { intros l r interp. simpl.
    destruct (interpret l interp) as [a|n]; destruct (interpret r interp) as [b|m];
      split; intros H; try (destruct H as [x Hx]; discriminate Hx);
      try (destruct H as [[x Hx] [y Hy]]; discriminate); eauto. }
  split. { exact interpret_total. }
  split. { intros [] []; repeat split; reflexivity. }
  repeat split; reflexivity.
Qed.

Lemma C7_interpret_witness :
  interpret (And (Predicate "p") (Or (Predicate "q") (Predicate "r")))
    {[ "p" := false ]} = Value false
  /\ interpret (Predicate "p") {[ "q" := true ]} = MissingVariable "p".
Proof.
  destruct C7_interpret as (Hleaf & Hand & _).
  split.
  - apply (Hand (Predicate "p") (Or (Predicate "q") (Predicate "r")) {[ "p" := false ]}).
    reflexivity.
  - apply (Hleaf "p" {[ "q" := true ]}). reflexivity.
Defined.

(** ** Truth value and operators of a formula *)

(** C9.  Converting a formula to a boolean raises [TypeError]; [__and__]
    and [__or__] given something that is not a formula (a boolean, a plain
    object) hand back [NotImplemented] and raise nothing; given a formula
    they build the node. *)
Theorem C9_bool_and_operators :
  (forall u, __bool__ u = Raise TypeError)
  /\ (forall u b, __and__ u (a_bool b) = NotImplemented
                  /\ __or__ u (a_bool b) = NotImplemented)
  /\ (forall u, __and__ u an_object = NotImplemented
                /\ __or__ u an_object = NotImplemented)
  /\ (forall u v, __and__ u (a_formula v) = Composed (And u v)
                  /\ __or__ u (a_formula v) = Composed (Or u v)).
Proof. repeat split; reflexivity. Qed.

(** ** Lists of formulas *)

Lemma split_comma_nonempty text : split_comma text <> [].
Proof.
  destruct text as [|c text]; simpl; [discriminate|].
  destruct (Ascii.eqb c ","); [discriminate|].
  destruct (split_comma text); discriminate.
Qed.

Lemma join_split_comma text : join_comma (split_comma text) = text.
Proof.
  induction text as [|c text IH]; [reflexivity|].
  simpl split_comma. destruct (Ascii.eqb c ",") eqn:Ec.
  - apply Ascii.eqb_eq in Ec as ->.
    pose proof (split_comma_nonempty text) as Hne.
    destruct (split_comma text) as [|piece pieces] eqn:E; [congruence|].
    change (String "," (join_comma (piece :: pieces)) = String "," text).
    rewrite IH. reflexivity.
  - pose proof (split_comma_nonempty text) as Hne.
    destruct (split_comma text) as [|piece pieces] eqn:E; [congruence|].
    rewrite <- IH. destruct pieces; reflexivity.
Qed.

Lemma char_in_cons c d s : char_in c (String d s) = Ascii.eqb c d || char_in c s.
Proof. reflexivity. Qed.

Lemma split_comma_pieces text :
  Forall (fun s => char_in "," s = false) (split_comma text).
Proof.
  induction text as [|c text IH]; simpl split_comma.
  - constructor; [reflexivity | constructor].
  - destruct (Ascii.eqb c ",") eqn:Ec.
    + constructor; [reflexivity | exact IH].
    + destruct (split_comma text) as [|piece pieces].
      * constructor; [|constructor].
        rewrite char_in_cons, Ascii.eqb_sym, Ec. reflexivity.
      * inversion IH as [|? ? Hp Hps]; subst. constructor; [|exact Hps].
        rewrite char_in_cons, Ascii.eqb_sym, Ec. exact Hp.
Qed.

Lemma props_of_all pieces ps :
  Forall2 (fun s p => prop s = Return p) pieces ps ->
  props_of pieces = Return ps.
Proof.
  induction 1 as [|s p pieces ps Hs _ IH]; simpl; [reflexivity|].
  rewrite Hs, IH. reflexivity.
Qed.

Lemma props_of_first_failure pre s post e :
  Forall (fun s => exists p, prop s = Return p) pre ->
  prop s = Raise e ->
  props_of (pre ++ s :: post) = Raise (genexpr_raise e).
Proof.
  intros Hpre Hs. induction Hpre as [|s0 pre [p0 Hp0] _ IH]; simpl.
  - rewrite Hs. reflexivity.
  - rewrite Hp0, IH. reflexivity.
Qed.

(** C8, on the code.  [props] cuts the text at every comma (the pieces
    joined by commas give the text back and none holds a comma) and parses
    the pieces from left to right; when all parse it returns their formulas
    in order.  At the first piece whose [prop] raises, the exception leaves
    the generator expression: a [ValueError] passes unchanged, but the
    [StopIteration] that [prop] raises on a piece without tokens comes out as
    a [RuntimeError], as on ["p,"] and on [""]. *)
Theorem C8_props_on_a_piece_without_tokens :
  (forall text,
      join_comma (split_comma text) = text
      /\ Forall (fun s => char_in "," s = false) (split_comma text))
  /\ (forall text ps,
      Forall2 (fun s p => prop s = Return p) (split_comma text) ps ->
      props text = Return ps)
  /\ (forall text pre s post e,
      split_comma text = pre ++ s :: post ->
      Forall (fun s => exists p, prop s = Return p) pre ->
      prop s = Raise e ->
      props text = Raise (genexpr_raise e))
  /\ (forall msg, genexpr_raise (ValueError msg) = ValueError msg)
  /\ split_comma "p," = ["p"; ""]
  /\ prop "" = Raise StopIteration
  /\ props "p," = Raise (RuntimeError "generator raised StopIteration")
  /\ props "" = Raise (RuntimeError "generator raised StopIteration")
  /\ props "p,-" = Raise (ValueError "unexpected end of string").
Proof.
  split. { intros text. split; [apply join_split_comma | apply split_comma_pieces]. }
  split. { intros text ps H. apply props_of_all. exact H. }
  split.
  { intros text pre s post e Hsplit Hpre Hs. unfold props. rewrite Hsplit.
    apply props_of_first_failure; assumption. }
  repeat split; reflexivity.
Qed.

Lemma C8_props_on_a_piece_without_tokens_witness :
  props "p & q,~r" = Return [And (Predicate "p") (Predicate "q"); Not (Predicate "r")]
  /\ props "p,q),(r" = Raise (ValueError "unexpected end of string").
Proof.
  destruct C8_props_on_a_piece_without_tokens as (_ & Hall & Hfail & _).
  split.
  - apply (Hall "p & q,~r").
    repeat constructor.
  - apply (Hfail "p,q),(r" ["p"; "q)"] "(r" [] (ValueError "unexpected end of string"));
      [reflexivity | | reflexivity].
    repeat constructor; eexists; reflexivity.
Defined.

(** ** Termination *)

(** C10.  Every resumption of [_lex] that yields a token leaves a strictly
    shorter text, the identifier loop included, so the tokens of a text are
    no more than its characters; [_lex] itself always comes to an end.  Every
    method of the parser, started with a call depth of eight per pending
    token and eight more, comes to an end, because a token is consumed
    before a rule is entered again; so [prop] comes to an end on every text,
    returning a formula or raising, and a larger call depth gives the same
    result. *)
Theorem C10_lexing_and_parsing_terminate :
  (forall text,
      match _lex text with
      | Return (Some (_, rest)) => String.length rest < String.length text
      | Return None => True
      | Raise _ => True
      | OutOfFuel => False
      end)
  /\ (forall s, let '(parts, rest) := ident_tail s in
                String.length parts + String.length rest = String.length s)
  /\ (forall text, token_count text <= String.length text)
  /\ (forall self ty,
      at_token ty self = true ->
      match _advance self with
      | Return self' => pending self' < pending self
      | Raise _ => True
      | OutOfFuel => False
      end)
  /\ (forall self extra,
      settled (bic (8 * pending self + 8 + extra) self) = true)
  /\ (forall text extra,
      prop_within (depth_bound text + extra) text = prop text)
  /\ (forall text,
      (exists p, prop text = Return p) \/ (exists e, prop text = Raise e)).
Proof.
  split.
  { intros text. pose proof (_lex_settled text) as Hs.
    destruct (_lex text) as [[[tok rest]|]| |] eqn:E; try exact I.
    - exact (_lex_shrinks _ _ _ E).
    - discriminate Hs. }
  split.
  { intros s. destruct (ident_tail s) as [parts rest] eqn:E.
    exact (ident_tail_length _ _ _ E). }
  split. { exact token_count_le_length. }
  split.
  { intros self ty Hat. pose proof (_advance_settled self) as Hs.
    destruct (_advance self) as [self'| |] eqn:E; try exact I.
    - exact (at_token_advance _ _ _ Hat E).
    - discriminate Hs. }
  split.
  { intros self extra. apply (methods_settle (8 * pending self + 8 + extra)). lia. }
  split.
  { intros text extra. symmetry. apply prop_within_prop.
    apply prop_within_settled. lia. }
  intros text. pose proof (prop_within_settled (depth_bound text) text (le_n _)) as Hs.
  fold (prop text) in Hs.
  destruct (prop text) as [p|e|]; [left; eauto | right; eauto | discriminate Hs].
Qed.

Lemma C10_lexing_and_parsing_terminate_witness :
  pending (mk_Parser " q" (Some AND) "&") = 2
  /\ match _advance (mk_Parser " q" (Some AND) "&") with
     | Return self' => pending self' < 2
     | Raise _ => True
     | OutOfFuel => False
     end.
Proof.
  split; [reflexivity|].
  apply (proj1 (proj2 (proj2 (proj2 C10_lexing_and_parsing_terminate)))
           (mk_Parser " q" (Some AND) "&") AND).
  reflexivity.
Defined.

(** * Further properties of the lexer and the parser *)

(** ** Blanks *)

Lemma _lex_skip_blank ws text :
  blank ws = true -> _lex (ws +:+ text) = _lex text.
Proof.
  induction ws as [|c ws IH]; [reflexivity|].
  unfold blank. simpl all_chars. intros H. apply andb_true_iff in H as [Hc Hws].
  rewrite append_cons.
  transitivity (_lex (ws +:+ text)); [|apply IH; exact Hws].
  destruct c as [[] [] [] [] [] [] [] []]; vm_compute in Hc;
    first [discriminate Hc | reflexivity].
Qed.

Lemma _lex_None_blank text : _lex text = Return None -> blank text = true.
Proof.
  induction text as [|c it IH]; [reflexivity|]. simpl.
  repeat case_match; intros E; simplify_eq/=; try discriminate.
  - bind_inv E. discriminate.
  - bind_inv E. bind_inv E. discriminate.
  - unfold blank. simpl. apply andb_true_iff. split; [assumption|].
    apply IH. exact E.
Qed.

Lemma token_count_ext s1 s2 : _lex s1 = _lex s2 -> token_count s1 = token_count s2.
Proof.
  intros E. destruct (_lex s2) as [[[tok rest]|]| |] eqn:E2.
  - rewrite (token_count_yield _ _ _ E), (token_count_yield _ _ _ E2). reflexivity.
  - rewrite !token_count_stop; congruence.
  - rewrite !token_count_stop; congruence.
  - rewrite !token_count_stop; congruence.
Qed.

(** X1.  Blanks before a text change nothing: [prop] gives the same outcome,
    formula or exception, for the text with and without them. *)
Theorem prop_leading_blanks ws text :
  blank ws = true -> prop (ws +:+ text) = prop text.
Proof.
  intros Hws. pose proof (_lex_skip_blank ws text Hws) as E.
  unfold prop, depth_bound. rewrite (token_count_ext _ _ E).
  unfold prop_within, _Parser_init. rewrite E. reflexivity.
Qed.

Lemma prop_leading_blanks_witness :
  blank (String "009" (String " " (String "010" ""))) = true
  /\ prop (String "009" (String " " (String "010" "")) +:+ "p -> q") = prop "p -> q".
Proof.
  split; [reflexivity|].
  apply (prop_leading_blanks (String "009" (String " " (String "010" ""))) "p -> q").
  reflexivity.
Defined.

(** ** Tokens *)

Lemma ident_tail_split s parts rest :
  ident_tail s = (parts, rest) ->
  s = parts +:+ rest
  /\ all_chars (fun d => isalnum d || Ascii.eqb d "_") parts = true
  /\ boundary rest = true.
Proof.
  revert parts rest. induction s as [|c s IH]; intros parts rest; simpl.
  - intros [= <- <-]. repeat split.
  - destruct (isalnum c || Ascii.eqb c "_") eqn:Ec.
    + destruct (ident_tail s) as [p r] eqn:E. intros [= <- <-].
      destruct (IH _ _ eq_refl) as (Hs & Hp & Hr).
      split; [rewrite append_cons; f_equal; exact Hs|].
      split; [simpl; rewrite Ec; exact Hp | exact Hr].
    + intros [= <- <-]. split; [reflexivity|]. split; [reflexivity|].
      simpl. rewrite Ec. reflexivity.
Qed.

Lemma _lex_accept_cons it expected it' :
  _lex_accept it expected = Return it' -> it = String expected it'.
Proof.
  destruct it as [|c it0]; simpl; [discriminate|].
  destruct (Ascii.eqb c expected) eqn:E; [|discriminate].
  apply Ascii.eqb_eq in E as ->. intros [= <-]. reflexivity.
Qed.

(** X2.  A token [_lex] yields is cut out of the text: the text is some
    blanks, then the lexeme of the token, then the text that is left. *)
Theorem _lex_token_in_text text ty v rest :
  _lex text = Return (Some ((ty, v), rest)) ->
  exists ws, blank ws = true /\ text = ws +:+ v +:+ rest.
Proof.
  induction text as [|c it IH]; simpl; [discriminate|].
  repeat case_match; intros E; simplify_eq/=;
    repeat match goal with
    | H : Ascii.eqb _ _ = true |- _ => apply Ascii.eqb_eq in H; subst
    end;
    try (exists ""; split; reflexivity).
  - bind_inv E. apply _lex_accept_cons in Ha. simplify_eq/=.
    exists ""; split; reflexivity.
  - bind_inv E. bind_inv E. apply _lex_accept_cons in Ha, Ha0. simplify_eq/=.
    exists ""; split; reflexivity.
  - destruct (IH E) as (ws & Hws & ->).
    exists (String c ws). split; [|reflexivity].
    unfold blank in *. simpl. apply andb_true_iff. split; assumption.
  - match goal with H : ident_tail _ = _ |- _ =>
      apply ident_tail_split in H as (-> & _ & _) end.
    exists "". split; reflexivity.
Qed.

Lemma _lex_token_in_text_witness :
  exists ws, blank ws = true /\ "  <-> q" = ws +:+ "<->" +:+ " q".
Proof. apply (_lex_token_in_text "  <-> q" IFF "<->" " q"). reflexivity. Defined.

(** X3.  The lexeme of a yielded token goes with its type: the fixed text
    of the connective or parenthesis, or for an IDENT a first character that
    passes the letter-or-underscore test and then characters that pass the
    alphanumeric-or-underscore test; and an IDENT is as long as it can be:
    the text left behind it does not start with a character its loop would
    have taken. *)
Theorem _lex_token_shape text ty v rest :
  _lex text = Return (Some ((ty, v), rest)) ->
  lexeme_of ty v = true /\ (ty = IDENT -> boundary rest = true).
Proof.
  induction text as [|c it IH]; simpl; [discriminate|].
  repeat case_match; intros E; simplify_eq/=;
    try (split; [reflexivity | discriminate]).
  - bind_inv E. simplify_eq/=. split; [reflexivity | discriminate].
  - bind_inv E. bind_inv E. simplify_eq/=. split; [reflexivity | discriminate].
  - apply IH. exact E.
  - match goal with H : ident_tail _ = _ |- _ =>
      apply ident_tail_split in H as (_ & Hp & Hr) end.
    split; [|intros _; exact Hr].
    apply andb_true_iff. split; assumption.
Qed.

Lemma _lex_token_shape_witness :
  lexeme_of IDENT "x1" = true /\ (IDENT = IDENT -> boundary "&y" = true).
Proof. apply (_lex_token_shape "  x1&y" IDENT "x1" "&y"). reflexivity. Defined.

(** ** Exceptions *)

Lemma bind_Raise_inv {A B} (m : outcome A) (f : A -> outcome B) e :
  m ≫= f = Raise e -> m = Raise e \/ exists a, m = Return a /\ f a = Raise e.
Proof. destruct m as [a|e'|]; simpl; [eauto | intros [= ->]; auto | discriminate]. Qed.

Lemma _lex_accept_raises it expected e :
  _lex_accept it expected = Raise e ->
  e = ValueError _UNEXP_END_OF_STR
  \/ exists c, char_in c it = true /\ e = ValueError (_unexp_char c).
Proof.
  destruct it as [|c it]; simpl; [intros [= <-]; auto|].
  destruct (Ascii.eqb c expected); [discriminate|]. intros [= <-]. right.
  exists c. split; [|reflexivity]. simpl. rewrite Ascii.eqb_refl. reflexivity.
Qed.

(** X6.  What a resumption of [_lex] can raise: the end-of-string error, or
    the unexpected-character error for a character that occurs in the
    text. *)
Theorem _lex_raises text e :
  _lex text = Raise e ->
  e = ValueError _UNEXP_END_OF_STR
  \/ exists c, char_in c text = true /\ e = ValueError (_unexp_char c).
Proof.
  assert (Hin : forall c d it, char_in c it = true -> char_in c (String d it) = true).
  { intros c d it H. rewrite char_in_cons, H. apply orb_true_r. }
  induction text as [|c it IH]; [discriminate|].
  simpl _lex. repeat case_match; intros E; simplify_eq/=; try discriminate.
  - apply bind_Raise_inv in E as [E|(a & _ & E)]; [|discriminate].
    apply _lex_accept_raises in E as [->|(d & Hd & ->)]; [auto|].
    right. exists d. split; [apply Hin; exact Hd | reflexivity].
  - apply bind_Raise_inv in E as [E|(a & Ha & E)].
    + apply _lex_accept_raises in E as [->|(d & Hd & ->)]; [auto|].
      right. exists d. split; [apply Hin; exact Hd | reflexivity].
    + apply bind_Raise_inv in E as [E|(b & _ & E)]; [|discriminate].
      apply _lex_accept_cons in Ha. subst it.
      apply _lex_accept_raises in E as [->|(d & Hd & ->)]; [auto|].
      right. exists d. split; [do 2 apply Hin; exact Hd | reflexivity].
  - destruct (IH E) as [->|(d & Hd & ->)]; [auto|].
    right. exists d. split; [apply Hin; exact Hd | reflexivity].
  - right. exists c. split; [|reflexivity].
    simpl. rewrite Ascii.eqb_refl. reflexivity.
Qed.

Lemma _lex_raises_witness :
  ValueError "unexpected character '$'" = ValueError _UNEXP_END_OF_STR
  \/ exists c, char_in c " $x" = true
               /\ ValueError "unexpected character '$'" = ValueError (_unexp_char c).
Proof. apply (_lex_raises " $x"). reflexivity. Defined.

Lemma _lex_module_error text e : _lex text = Raise e -> module_error e.
Proof.
  intros H. apply _lex_raises in H as [->|(c & _ & ->)]; constructor.
Qed.

Lemma _advance_module_error self e : _advance self = Raise e -> module_error e.
Proof.
  unfold _advance. intros H. apply bind_Raise_inv in H as [H|(a & _ & H)].
  - exact (_lex_module_error _ _ H).
  - destruct a as [[[ty v] rest]|]; discriminate H.
Qed.

Lemma unit_raise_module_error {A} self e :
  @unit_raise A self = Raise e -> module_error e.
Proof.
  unfold unit_raise. destruct (_current_token_type self); intros [= <-]; constructor.
Qed.

Lemma methods_raise n :
  raises_module_errors (bic n) /\ raises_module_errors (cond n)
  /\ raises_module_errors (disj n)
  /\ (forall c, raises_module_errors (disj_while n c))
  /\ raises_module_errors (conj n)
  /\ (forall c, raises_module_errors (conj_while n c))
  /\ raises_module_errors (neg n) /\ raises_module_errors (unit n).
Proof.
  induction n as [|n (IHbic & IHcond & IHdisj & IHdw & IHconj & IHcw & IHneg & IHunit)].
  { repeat split; intros; intros ? ? ?; discriminate. }
  repeat split; [| | |intros c| |intros c| |]; intros self e H.
  1: rewrite bic_S in H. 2: rewrite cond_S in H. 3: rewrite disj_S in H.
  4: rewrite disj_while_S in H. 5: rewrite conj_S in H.
  6: rewrite conj_while_S in H. 7: rewrite neg_S in H. 8: rewrite unit_S in H.
  all: cbv zeta in H.
  all: repeat match goal with
       | H : _ ≫= _ = Raise _ |- _ =>
           let a := fresh "a" in
           apply bind_Raise_inv in H; destruct H as [H | (a & _ & H)];
           [ | lazymatch type of a with
               | (_ * _)%type => destruct a as [? ?]
               | _ => idtac
               end ]
       | H : (if at_token ?ty ?s then _ else _) = Raise _ |- _ =>
           destruct (at_token ty s)
       | H : Return _ = Raise _ |- _ => discriminate H
       | H : unit_raise _ = Raise _ |- _ => exact (unit_raise_module_error _ _ H)
       | H : _advance _ = Raise _ |- _ => exact (_advance_module_error _ _ H)
       | H : _ = Raise _ |- _ =>
           first [ exact (IHbic _ _ H) | exact (IHcond _ _ H) | exact (IHdisj _ _ H)
                 | exact (IHdw _ _ _ H) | exact (IHconj _ _ H) | exact (IHcw _ _ _ H)
                 | exact (IHneg _ _ H) | exact (IHunit _ _ H) ]
       end.
Qed.

Lemma prop_Raise_cases text e :
  prop text = Raise e -> e = StopIteration \/ module_error e.
Proof.
  intros H. unfold prop, prop_within in H.
  apply bind_Raise_inv in H as [H|(self & _ & H)].
  - unfold _Parser_init in H. apply bind_Raise_inv in H as [H|(a & _ & H)].
    + right. exact (_lex_module_error _ _ H).
    + destruct a as [[[ty v] rest]|]; [discriminate H|]. left. congruence.
  - apply bind_Raise_inv in H as [H|([p s] & _ & H)]; [|discriminate H].
    right. exact (proj1 (methods_raise _) _ _ H).
Qed.

Lemma prop_within_cases n text :
  prop_within n text = OutOfFuel \/ prop_within n text = prop text.
Proof.
  destruct (settled (prop_within n text)) eqn:Hs.
  - right. symmetry. apply prop_within_prop. exact Hs.
  - left. destruct (prop_within n text); [discriminate Hs..|reflexivity].
Qed.

(** X4.  What [prop] can raise.  Under any bound on the call depth, [prop]
    either runs out of call depth (in the interpreter a [RecursionError] on
    deeply nested text; here the outcome [OutOfFuel], which is no exception
    of the model), or it does what it does with unbounded depth, and then
    an exception it raises is [StopIteration] or a [ValueError] with one of
    the three messages of the module (end of string, unexpected character,
    unexpected token). *)
Theorem prop_within_raises n text :
  prop_within n text = OutOfFuel
  \/ (prop_within n text = prop text
      /\ forall e, prop text = Raise e -> e = StopIteration \/ module_error e).
Proof.
  destruct (prop_within_cases n text) as [H|H]; [left; exact H|].
  right. split; [exact H | apply prop_Raise_cases].
Qed.

Lemma prop_within_raises_witness :
  prop_within 20 "(p & )" = Raise (ValueError "unexpected token ')'")
  /\ (ValueError "unexpected token ')'" = StopIteration
      \/ module_error (ValueError "unexpected token ')'")).
Proof.
  split; [reflexivity|].
  destruct (prop_within_raises 20 "(p & )") as [H|[_ H]].
  - vm_compute in H. discriminate H.
  - apply H. reflexivity.
Defined.

(** X5.  [prop] raises [StopIteration] on the blank texts and on no other
    text. *)
Theorem prop_StopIteration_iff_blank text :
  prop text = Raise StopIteration <-> blank text = true.
Proof.
  split.
  - intros H. unfold prop, prop_within in H.
    apply bind_Raise_inv in H as [H|(self & _ & H)].
    + unfold _Parser_init in H. apply bind_Raise_inv in H as [H|(a & Ha & H)].
      * apply _lex_module_error in H. inversion H.
      * destruct a as [[[ty v] rest]|]; [discriminate H|].
        apply _lex_None_blank. exact Ha.
    + apply bind_Raise_inv in H as [H|([p s] & _ & H)]; [|discriminate H].
      apply (proj1 (methods_raise _)) in H. inversion H.
  - intros Hb. apply (prop_within_Raise 0).
    unfold prop_within, _Parser_init. rewrite (_lex_blank _ Hb). reflexivity.
Qed.

Lemma prop_StopIteration_iff_blank_witness :
  prop "  " = Raise StopIteration /\ blank "  " = true.
Proof.
  split.
  - apply (proj2 (prop_StopIteration_iff_blank "  ")). reflexivity.
  - apply (proj1 (prop_StopIteration_iff_blank "  ")). reflexivity.
Defined.

(** ** The size of the result *)

Lemma methods_consume n :
  (forall self p self', bic n self = Return (p, self') ->
      nodes p + pending self' <= pending self)
  /\ (forall self p self', cond n self = Return (p, self') ->
      nodes p + pending self' <= pending self)
  /\ (forall self p self', disj n self = Return (p, self') ->
      nodes p + pending self' <= pending self)
  /\ (forall c self p self', disj_while n c self = Return (p, self') ->
      nodes p + pending self' <= nodes c + pending self)
  /\ (forall self p self', conj n self = Return (p, self') ->
      nodes p + pending self' <= pending self)
  /\ (forall c self p self', conj_while n c self = Return (p, self') ->
      nodes p + pending self' <= nodes c + pending self)
  /\ (forall self p self', neg n self = Return (p, self') ->
      nodes p + pending self' <= pending self)
  /\ (forall self p self', unit n self = Return (p, self') ->
      nodes p + pending self' <= pending self).
Proof.
  induction n as [|n (IHbic & IHcond & IHdisj & IHdw & IHconj & IHcw & IHneg & IHunit)].
  { repeat split; intros; discriminate. }
  repeat split; [| | |intros c| |intros c| |]; intros self p self' H; simpl in H; open_call H.
  all: simplify_eq/=.
  all: repeat match goal with
       | Hat : at_token _ ?s = true, Hadv : _advance ?s = Return _ |- _ =>
           apply (at_token_advance _ _ _ Hat) in Hadv; clear Hat
       | Hc : _ = Return (_, _) |- _ =>
           first [ apply IHbic in Hc | apply IHcond in Hc | apply IHdisj in Hc
                 | apply IHdw in Hc | apply IHconj in Hc | apply IHcw in Hc
                 | apply IHneg in Hc | apply IHunit in Hc ]
       end.
  all: simpl in *; lia.
Qed.

(** X7.  A formula [prop] returns has no more nodes than the text has
    tokens, and so no more than the text has characters: every leaf and
    every connective of the result is one token that was consumed. *)
Theorem prop_nodes_bounded text p :
  prop text = Return p ->
  nodes p <= token_count text /\ token_count text <= String.length text.
Proof.
  intros H. split; [|apply token_count_le_length].
  unfold prop, prop_within in H. bind_inv H. bind_inv H. destruct a0 as [q s].
  simplify_eq/=.
  apply (proj1 (methods_consume _)) in Ha0.
  rewrite (_Parser_init_pending _ _ Ha) in Ha0. lia.
Qed.

Lemma prop_nodes_bounded_witness :
  nodes (And (Not (Predicate "p")) (Predicate "q")) <= token_count "~p & (q)"
  /\ token_count "~p & (q)" <= String.length "~p & (q)".
Proof. apply (prop_nodes_bounded "~p & (q)"). reflexivity. Defined.

(** ** The names of the leaves *)

Lemma _advance_ident_current self self' :
  _advance self = Return self' -> ident_current self'.
Proof.
  unfold _advance. intros H. bind_inv H.
  destruct a as [[[ty v] rest]|]; simplify_eq/=.
  - intros Hty. simpl in *. simplify_eq.
    exact (proj1 (_lex_token_shape _ _ _ _ Ha)).
  - intros Hty. discriminate Hty.
Qed.

Lemma _Parser_init_ident_current text self :
  _Parser_init text = Return self -> ident_current self.
Proof.
  unfold _Parser_init. intros H. bind_inv H.
  destruct a as [[[ty v] rest]|]; simplify_eq/=.
  intros Hty. simpl in *. simplify_eq.
  exact (proj1 (_lex_token_shape _ _ _ _ Ha)).
Qed.

Lemma at_IDENT_lexed self :
  ident_current self -> at_token IDENT self = true ->
  lexed_identifier (_current_token_value self) = true.
Proof.
  intros Hw Hat. apply Hw. unfold at_token in Hat.
  apply bool_decide_eq_true in Hat. exact Hat.
Qed.

Lemma methods_keep n :
  keeps_lexemes (bic n) /\ keeps_lexemes (cond n) /\ keeps_lexemes (disj n)
  /\ (forall c, leaves_lexed c = true -> keeps_lexemes (disj_while n c))
  /\ keeps_lexemes (conj n)
  /\ (forall c, leaves_lexed c = true -> keeps_lexemes (conj_while n c))
  /\ keeps_lexemes (neg n) /\ keeps_lexemes (unit n).
Proof.
  induction n as [|n (IHbic & IHcond & IHdisj & IHdw & IHconj & IHcw & IHneg & IHunit)].
  { do 7 (split; [intros; intros ? ? ? ? ?; discriminate|]).
    intros ? ? ? ? ?; discriminate. }
  split; [|split; [|split; [|split; [|split; [|split; [|split]]]]]];
    [| | |intros c Hc| |intros c Hc| |]; intros self p self' Hw H.
  1: rewrite bic_S in H. 2: rewrite cond_S in H. 3: rewrite disj_S in H.
  4: rewrite disj_while_S in H. 5: rewrite conj_S in H.
  6: rewrite conj_while_S in H. 7: rewrite neg_S in H. 8: rewrite unit_S in H.
  all: cbv zeta in H; open_call H.
  all: repeat match goal with
       | Hadv : _advance _ = Return _ |- _ => apply _advance_ident_current in Hadv
       | Hs : ident_current ?s, Hcall : disj_while _ ?c ?s = Return (_, _) |- _ =>
           let Hl := fresh "Hl" in
           assert (Hl : leaves_lexed c = true)
             by (simpl; repeat (apply andb_true_intro; split); assumption);
           apply (IHdw c Hl _ _ _ Hs) in Hcall; destruct Hcall as [? ?]
       | Hs : ident_current ?s, Hcall : conj_while _ ?c ?s = Return (_, _) |- _ =>
           let Hl := fresh "Hl" in
           assert (Hl : leaves_lexed c = true)
             by (simpl; repeat (apply andb_true_intro; split); assumption);
           apply (IHcw c Hl _ _ _ Hs) in Hcall; destruct Hcall as [? ?]
       | Hs : ident_current ?s, Hcall : _ ?s = Return (_, _) |- _ =>
           first [ apply (IHbic _ _ _ Hs) in Hcall | apply (IHcond _ _ _ Hs) in Hcall
                 | apply (IHdisj _ _ _ Hs) in Hcall | apply (IHconj _ _ _ Hs) in Hcall
                 | apply (IHneg _ _ _ Hs) in Hcall | apply (IHunit _ _ _ Hs) in Hcall ];
           destruct Hcall as [? ?]
       end.
  all: simplify_eq/=; split; [|assumption].
  all: repeat (apply andb_true_intro; split); eauto using at_IDENT_lexed.
Qed.

(** X8.  The leaves of a formula [prop] returns are named by lexemes of
    IDENT tokens: a name is never empty, starts with a character that passes
    the letter-or-underscore test of [_lex], and goes on with characters that
    pass its alphanumeric-or-underscore test; so no name holds a blank, a
    parenthesis or a character of a connective. *)
Theorem prop_leaves_lexed text p :
  prop text = Return p -> leaves_lexed p = true.
Proof.
  intros H. unfold prop, prop_within in H. bind_inv H. bind_inv H.
  destruct a0 as [q s]. simplify_eq/=.
  exact (proj1 (proj1 (methods_keep _) _ _ _ (_Parser_init_ident_current _ _ Ha) Ha0)).
Qed.

Lemma prop_leaves_lexed_witness :
  leaves_lexed (Or (Predicate "x_1") (Not (Predicate "Y"))) = true.
Proof. apply (prop_leaves_lexed "x_1|~Y"). reflexivity. Defined.

Lemma lexed_start_lex c :
  (isalpha c || Ascii.eqb c "_") = true ->
  Ascii.eqb c "~" = false /\ Ascii.eqb c "&" = false /\ Ascii.eqb c "|" = false
  /\ Ascii.eqb c "-" = false /\ Ascii.eqb c "<" = false /\ Ascii.eqb c "(" = false
  /\ Ascii.eqb c ")" = false /\ char_in c WHITESPACE = false.
Proof.
  destruct c as [[] [] [] [] [] [] [] []]; vm_compute; intros H;
    first [discriminate H | repeat split].
Qed.

Lemma ident_tail_lexed x rest :
  all_chars (fun d => isalnum d || Ascii.eqb d "_") x = true ->
  boundary rest = true ->
  ident_tail (x +:+ rest) = (x, rest).
Proof.
  intros Hx Hr. induction x as [|c x IH]; simpl in *.
  - apply ident_tail_at_boundary. exact Hr.
  - apply andb_true_iff in Hx as [Hc Hx].
    rewrite Hc, (IH Hx). reflexivity.
Qed.

Lemma _lex_lexed_identifier x rest :
  lexed_identifier x = true -> boundary rest = true ->
  _lex (x +:+ rest) = Return (Some ((IDENT, x), rest)).
Proof.
  destruct x as [|c x]; [discriminate|]. simpl. intros Hx Hr.
  apply andb_true_iff in Hx as [Hc Hx].
  destruct (lexed_start_lex _ Hc) as (-> & -> & -> & -> & -> & -> & -> & Hw).
  simpl in Hw. rewrite Hw, Hc. rewrite (ident_tail_lexed _ _ Hx Hr). reflexivity.
Qed.

(** X9.  The names that can stand alone as a formula are the lexemes of the
    identifier branch: [prop] applied to a name returns the leaf of that
    name exactly when the name starts with a character that passes the
    letter-or-underscore test and goes on with characters that pass the
    alphanumeric-or-underscore test. *)
Theorem prop_leaf_iff_lexed x :
  prop x = Return (Predicate x) <-> lexed_identifier x = true.
Proof.
  split.
  - intros H. exact (prop_leaves_lexed _ _ H).
  - intros Hx. apply (prop_within_Return 6).
    unfold prop_within, _Parser_init.
    pose proof (_lex_lexed_identifier x "" Hx eq_refl) as E.
    rewrite append_empty_r in E. rewrite E. reflexivity.
Qed.

Lemma prop_leaf_iff_lexed_witness :
  prop "_tmp9" = Return (Predicate "_tmp9") /\ lexed_identifier "_tmp9" = true.
Proof.
  split.
  - apply (proj2 (prop_leaf_iff_lexed "_tmp9")). reflexivity.
  - apply (proj1 (prop_leaf_iff_lexed "_tmp9")). reflexivity.
Defined.

(** ** Whole parses *)

Lemma parse_within_settled n text :
  depth_bound text <= n -> settled (parse_within n text) = true.
Proof.
  intros Hn. unfold parse_within.
  destruct (_Parser_init text) as [self| |] eqn:E; simpl; [|reflexivity|].
  - pose proof (_Parser_init_pending _ _ E) as Hp.
    apply (methods_settle n). unfold depth_bound in Hn. lia.
  - unfold _Parser_init in E. pose proof (_lex_settled text) as Hl.
    destruct (_lex text) as [[[[ty v] rest]|]| |]; simpl in *; discriminate.
Qed.

Lemma parse_within_le n m text :
  n <= m -> settled (parse_within n text) = true ->
  parse_within m text = parse_within n text.
Proof.
  intros Hle. unfold parse_within.
  destruct (_Parser_init text) as [self| |]; simpl; try reflexivity.
  intros Hs. apply bic_fuel_le; assumption.
Qed.

Lemma parse_within_Return n text r :
  parse_within n text = Return r -> parse text = Return r.
Proof.
  intros H. unfold parse.
  destruct (Nat.le_ge_cases n (depth_bound text)) as [Hle|Hge].
  - rewrite (parse_within_le n _ _ Hle); [exact H | rewrite H; reflexivity].
  - rewrite <- (parse_within_le _ n text Hge); [exact H|].
    apply parse_within_settled. lia.
Qed.

Lemma prop_of_parse text p self' :
  parse text = Return (p, self') -> prop text = Return p.
Proof.
  unfold parse, parse_within, prop, prop_within. intros H. bind_inv H.
  rewrite Ha. simpl. rewrite H. reflexivity.
Qed.

Lemma parse_of_run text ty v stream p self' :
  feed text = Return (mk_Parser stream (Some ty) v) ->
  runs bic (mk_Parser stream (Some ty) v) p self' ->
  parse text = Return (p, self').
Proof.
  intros Hfeed [n Hbic]. apply (parse_within_Return n).
  unfold parse_within, _Parser_init. unfold feed, _advance in Hfeed.
  simpl in Hfeed.
  destruct (_lex text) as [[[[ty' v'] rest]|]| |]; simplify_eq/=.
  apply Hbic. lia.
Qed.

Lemma run_of_parse text p self' :
  parse text = Return (p, self') ->
  exists stream ty v,
    _lex text = Return (Some ((ty, v), stream))
    /\ bic (depth_bound text) (mk_Parser stream (Some ty) v) = Return (p, self').
Proof.
  unfold parse, parse_within, _Parser_init. intros H. bind_inv H. bind_inv Ha.
  destruct a0 as [[[ty v] rest]|]; simplify_eq/=.
  exists rest, ty, v. split; [exact Ha0 | exact H].
Qed.

Lemma bic_before_paren text p more :
  parse text = Return (p, exhausted) ->
  exists stream ty v,
    feed (text +:+ ")" +:+ more) = Return (mk_Parser stream (Some ty) v)
    /\ runs bic (mk_Parser stream (Some ty) v) p (mk_Parser more (Some RPARENS) ")").
Proof.
  intros H. destruct (run_of_parse _ _ _ H) as (stream & ty & v & Hlex & Hbic).
  assert (Hs : stray (")" +:+ more) = true) by reflexivity.
  exists (stream +:+ ")" +:+ more), ty, v. split.
  { unfold feed, _advance. simpl _token_stream.
    rewrite (_lex_append_yield _ Hs _ _ _ Hlex). reflexivity. }
  destruct (methods_carry _ Hs (depth_bound text)) as (Hcarry & _).
  destruct (Hcarry _ _ _ _ (follows_sync _ stream ty v) Hbic) as (s2' & Hbic2 & Hf).
  inversion Hf as [|ty' v' rest' Hlex' Heq1 Heq2]; subst.
  simpl in Hlex'. simplify_eq.
  exists (depth_bound text). intros m Hm.
  rewrite (bic_fuel_le _ m _ Hm); [exact Hbic2 | rewrite Hbic2; reflexivity].
Qed.

Lemma runs_unit_parens_text text p more after :
  parse text = Return (p, exhausted) -> feed more = Return after ->
  runs unit (mk_Parser (text +:+ ")" +:+ more) (Some LPARENS) "(") p after.
Proof.
  intros H Hmore.
  destruct (bic_before_paren text p more H) as (stream & ty & v & Hfeed & Hrun).
  eapply (runs_unit_parens _ _ _ (mk_Parser more (Some RPARENS) ")"));
    [reflexivity | exact Hfeed | exact Hrun | reflexivity | exact Hmore].
Qed.

(** X10.  Parentheses around a text that parses as a whole change nothing:
    when the [bic] parse of a text returns a formula and uses up the tokens,
    the text in parentheses parses as a whole to the same formula, and the
    text in parentheses after [~] to its negation. *)
Theorem parse_parenthesised text p :
  parse text = Return (p, exhausted) ->
  parse ("(" +:+ text +:+ ")") = Return (p, exhausted)
  /\ parse ("~(" +:+ text +:+ ")") = Return (Not p, exhausted)
  /\ prop ("(" +:+ text +:+ ")") = Return p.
Proof.
  intros H.
  pose proof (runs_unit_parens_text text p "" exhausted H eq_refl) as Hunit.
  assert (Hneg : runs neg (mk_Parser (text +:+ ")") (Some LPARENS) "(") p exhausted).
  { apply runs_neg_unit; [reflexivity | exact Hunit]. }
  assert (H1 : parse ("(" +:+ text +:+ ")") = Return (p, exhausted)).
  { eapply parse_of_run; [reflexivity | as_bic Hneg]. }
  split; [exact H1|]. split; [|exact (prop_of_parse _ _ _ H1)].
  eapply (parse_of_run _ NOT "~" ("(" +:+ text +:+ ")")); [reflexivity|].
  assert (Hnot : runs neg (mk_Parser ("(" +:+ text +:+ ")") (Some NOT) "~")
                   (Not p) exhausted).
  { eapply runs_neg_not; [reflexivity | reflexivity | exact Hneg]. }
  as_bic Hnot.
Qed.

Lemma parse_parenthesised_witness :
  parse "(p | q)" = Return (Or (Predicate "p") (Predicate "q"), exhausted)
  /\ parse "~(p | q)" = Return (Not (Or (Predicate "p") (Predicate "q")), exhausted)
  /\ prop "(p | q)" = Return (Or (Predicate "p") (Predicate "q")).
Proof. apply (parse_parenthesised "p | q"). reflexivity. Defined.

(** X11.  Parsing composes over parenthesised operands: when two texts parse
    as a whole to [p1] and [p2], then for each of the four connectives the
    text [(t1) o (t2)] parses as a whole to the node of that connective over
    [p1] and [p2]. *)
Theorem parse_connective o t1 p1 t2 p2 :
  parse t1 = Return (p1, exhausted) ->
  parse t2 = Return (p2, exhausted) ->
  parse ("(" +:+ t1 +:+ ") " +:+ symbol o +:+ " (" +:+ t2 +:+ ")")
  = Return (node o p1 p2, exhausted).
Proof.
  intros H1 H2.
  pose proof (runs_unit_parens_text t2 p2 "" exhausted H2 eq_refl) as Hu2.
  pose proof (runs_unit_parens_text t1 p1
                (" " +:+ symbol o +:+ " (" +:+ t2 +:+ ")")
                (mk_Parser (" (" +:+ t2 +:+ ")") (Some (op_token o)) (symbol o))
                H1 (feed_symbol _ _)) as Hu1.
  assert (Hn2 : runs neg (mk_Parser (t2 +:+ ")") (Some LPARENS) "(") p2 exhausted).
  { apply runs_neg_unit; [reflexivity | exact Hu2]. }
  assert (Hn1 : runs neg
                  (mk_Parser (t1 +:+ ")" +:+ " " +:+ symbol o +:+ " (" +:+ t2 +:+ ")")
                     (Some LPARENS) "(") p1
                  (mk_Parser (" (" +:+ t2 +:+ ")") (Some (op_token o)) (symbol o))).
  { apply runs_neg_unit; [reflexivity | exact Hu1]. }
  assert (Hadv : _advance
                   (mk_Parser (" (" +:+ t2 +:+ ")") (Some (op_token o)) (symbol o))
                 = Return (mk_Parser (t2 +:+ ")") (Some LPARENS) "(")) by reflexivity.
  eapply (parse_of_run _ LPARENS "("
            (t1 +:+ ")" +:+ " " +:+ symbol o +:+ " (" +:+ t2 +:+ ")")).
  { rewrite append_cons. reflexivity. }
  destruct o; simpl node; simpl op_token in *; simpl symbol in *.
  - eapply runs_bic_stop; [|reflexivity].
    eapply runs_cond_stop; [|reflexivity].
    eapply runs_disj_single; [|reflexivity].
    eapply runs_conj_pair; [exact Hn1 | reflexivity | exact Hadv | exact Hn2 | reflexivity].
  - eapply runs_bic_stop; [|reflexivity].
    eapply runs_cond_stop; [|reflexivity].
    eapply runs_disj_pair;
      [as_conj Hn1 | reflexivity | exact Hadv | as_conj Hn2 | reflexivity].
  - eapply runs_bic_stop; [|reflexivity].
    eapply runs_cond_step; [as_disj Hn1 | reflexivity | exact Hadv | as_cond Hn2].
  - eapply runs_bic_step; [as_cond Hn1 | reflexivity | exact Hadv | as_bic Hn2].
Qed.

Lemma parse_connective_witness :
  parse ("(" +:+ "p -> q" +:+ ") " +:+ symbol conn_iff +:+ " (" +:+ "~p | q" +:+ ")")
  = Return (node conn_iff (Implies (Predicate "p") (Predicate "q"))
              (Or (Not (Predicate "p")) (Predicate "q")), exhausted).
Proof. apply (parse_connective conn_iff "p -> q" _ "~p | q"); reflexivity. Defined.

(** ** Texts that end too early, texts that start wrongly *)

Lemma fails_unit self e :
  at_token IDENT self = false -> at_token LPARENS self = false ->
  @unit_raise (Proposition * _Parser) self = Raise e -> fails unit self e.
Proof.
  intros H1 H2 He. enough_depth 1. rewrite unit_S, H1, H2. exact He.
Qed.

Lemma fails_unit_unclosed self s1 p s2 e :
  at_token LPARENS self = true -> _advance self = Return s1 ->
  runs bic s1 p s2 -> at_token RPARENS s2 = false ->
  @unit_raise (Proposition * _Parser) s2 = Raise e -> fails unit self e.
Proof.
  intros Hat Hadv [n Hbic] Hat2 He. enough_depth (S n).
  rewrite unit_S. unfold at_token in Hat |- *.
  apply bool_decide_eq_true in Hat. rewrite Hat.
  rewrite bool_decide_eq_false_2 by discriminate.
  rewrite bool_decide_eq_true_2 by reflexivity.
  rewrite Hadv, bind_Return. by_run Hbic.
  fold (at_token RPARENS s2). rewrite Hat2. exact He.
Qed.

Lemma fails_neg_unit self e :
  at_token NOT self = false -> fails unit self e -> fails neg self e.
Proof.
  intros Hat [n H]. enough_depth (S n). rewrite neg_S, Hat. apply H. lia.
Qed.

Lemma fails_conj_first self e : fails neg self e -> fails conj self e.
Proof.
  intros [n H]. enough_depth (S n). rewrite conj_S, H by lia. reflexivity.
Qed.

Lemma fails_conj_operand self l s1 s2 e :
  runs neg self l s1 -> at_token AND s1 = true -> _advance s1 = Return s2 ->
  fails neg s2 e -> fails conj self e.
Proof.
  intros [n1 Hl] Hat Hadv [n2 H]. enough_depth (S (S (n1 + n2))).
  rewrite conj_S. by_run Hl. destruct m as [|m]; [lia|].
  rewrite conj_while_S, Hat, Hadv, bind_Return, H by lia. reflexivity.
Qed.

Lemma fails_disj_first self e : fails conj self e -> fails disj self e.
Proof.
  intros [n H]. enough_depth (S n). rewrite disj_S, H by lia. reflexivity.
Qed.

Lemma fails_disj_operand self l s1 s2 e :
  runs conj self l s1 -> at_token OR s1 = true -> _advance s1 = Return s2 ->
  fails conj s2 e -> fails disj self e.
Proof.
  intros [n1 Hl] Hat Hadv [n2 H]. enough_depth (S (S (n1 + n2))).
  rewrite disj_S. by_run Hl. destruct m as [|m]; [lia|].
  rewrite disj_while_S, Hat, Hadv, bind_Return, H by lia. reflexivity.
Qed.

Lemma fails_cond_first self e : fails disj self e -> fails cond self e.
Proof.
  intros [n H]. enough_depth (S n). rewrite cond_S, H by lia. reflexivity.
Qed.

Lemma fails_cond_operand self l s1 s2 e :
  runs disj self l s1 -> at_token IMPLIES s1 = true -> _advance s1 = Return s2 ->
  fails cond s2 e -> fails cond self e.
Proof.
  intros [n1 Hl] Hat Hadv [n2 H]. enough_depth (S (n1 + n2)).
  rewrite cond_S. by_run Hl. rewrite Hat, Hadv, bind_Return, H by lia. reflexivity.
Qed.

Lemma fails_bic_first self e : fails cond self e -> fails bic self e.
Proof.
  intros [n H]. enough_depth (S n). rewrite bic_S, H by lia. reflexivity.
Qed.

Lemma fails_bic_operand self l s1 s2 e :
  runs cond self l s1 -> at_token IFF s1 = true -> _advance s1 = Return s2 ->
  fails bic s2 e -> fails bic self e.
Proof.
  intros [n1 Hl] Hat Hadv [n2 H]. enough_depth (S (n1 + n2)).
  rewrite bic_S. by_run Hl. rewrite Hat, Hadv, bind_Return, H by lia. reflexivity.
Qed.

Lemma fails_bic_of_unit self e :
  at_token NOT self = false -> fails unit self e -> fails bic self e.
Proof.
  intros Hat H. apply fails_bic_first, fails_cond_first, fails_disj_first,
    fails_conj_first, fails_neg_unit; assumption.
Qed.

Lemma prop_of_fail text ty v stream e :
  _lex text = Return (Some ((ty, v), stream)) ->
  fails bic (mk_Parser stream (Some ty) v) e ->
  prop text = Raise e.
Proof.
  intros Hlex [n H]. apply (prop_within_Raise n).
  unfold prop_within, _Parser_init. rewrite Hlex. simpl.
  rewrite H by lia. reflexivity.
Qed.

(** X12.  A text whose first token is a binary connective or a closing
    parenthesis is refused: [prop] raises the unexpected-token error that
    carries the lexeme of that token. *)
Theorem prop_first_token_refused text ty v rest :
  _lex text = Return (Some ((ty, v), rest)) ->
  (binary_token ty || bool_decide (ty = RPARENS)) = true ->
  prop text = Raise (ValueError (_unexp_token v)).
Proof.
  intros Hlex Hty. eapply prop_of_fail; [exact Hlex|].
  destruct ty; try discriminate Hty;
    (apply fails_bic_of_unit; [reflexivity|];
     apply fails_unit; reflexivity).
Qed.

Lemma prop_first_token_refused_witness :
  prop " <-> p" = Raise (ValueError (_unexp_token "<->")).
Proof. apply (prop_first_token_refused " <-> p" IFF "<->" " p"); reflexivity. Defined.

(** X13.  An opening parenthesis that is not closed is reported as the end
    of the string: when a text parses as a whole, [prop] applied to [(]
    followed by the text raises the end-of-string error. *)
Theorem prop_unclosed_parenthesis text p :
  parse text = Return (p, exhausted) ->
  prop ("(" +:+ text) = Raise (ValueError _UNEXP_END_OF_STR).
Proof.
  intros H. destruct (run_of_parse _ _ _ H) as (stream & ty & v & Hlex & Hbic).
  eapply (prop_of_fail _ LPARENS "(" text); [reflexivity|].
  apply fails_bic_of_unit; [reflexivity|].
  eapply (fails_unit_unclosed _ (mk_Parser stream (Some ty) v) p exhausted);
    [reflexivity | | | reflexivity | reflexivity].
  - unfold _advance. simpl. rewrite Hlex. reflexivity.
  - exists (depth_bound text). intros m Hm.
    rewrite (bic_fuel_le _ m _ Hm); [exact Hbic | rewrite Hbic; reflexivity].
Qed.

Lemma prop_unclosed_parenthesis_witness :
  prop ("(" +:+ "p & ~q") = Raise (ValueError _UNEXP_END_OF_STR).
Proof. apply (prop_unclosed_parenthesis "p & ~q" (And (Predicate "p") (Not (Predicate "q")))). reflexivity. Defined.

(** X14.  A connective with nothing behind it is reported as the end of the
    string: when a text parses as a whole, [prop] applied to the text in
    parentheses followed by any of the four connectives raises the
    end-of-string error. *)
Theorem prop_connective_without_operand o text p :
  parse text = Return (p, exhausted) ->
  prop ("(" +:+ text +:+ ") " +:+ symbol o) = Raise (ValueError _UNEXP_END_OF_STR).
Proof.
  intros H.
  assert (Hend : fails unit exhausted (ValueError _UNEXP_END_OF_STR))
    by (apply fails_unit; reflexivity).
  assert (Hneg : fails neg exhausted (ValueError _UNEXP_END_OF_STR))
    by (apply fails_neg_unit; [reflexivity | exact Hend]).
  pose proof (runs_unit_parens_text text p (" " +:+ symbol o)
                (mk_Parser "" (Some (op_token o)) (symbol o)) H) as Hu.
  assert (Hn : runs neg (mk_Parser (text +:+ ")" +:+ " " +:+ symbol o) (Some LPARENS) "(")
                 p (mk_Parser "" (Some (op_token o)) (symbol o))).
  { apply runs_neg_unit; [reflexivity|]. apply Hu. destruct o; reflexivity. }
  eapply (prop_of_fail _ LPARENS "(" (text +:+ ")" +:+ " " +:+ symbol o));
    [reflexivity|].
  destruct o; simpl op_token in *; simpl symbol in *.
  - apply fails_bic_first, fails_cond_first, fails_disj_first.
    eapply fails_conj_operand; [exact Hn | reflexivity | reflexivity | exact Hneg].
  - apply fails_bic_first, fails_cond_first.
    eapply fails_disj_operand;
      [as_conj Hn | reflexivity | reflexivity | apply fails_conj_first; exact Hneg].
  - apply fails_bic_first.
    eapply fails_cond_operand; [as_disj Hn | reflexivity | reflexivity|].
    apply fails_cond_first, fails_disj_first, fails_conj_first; exact Hneg.
  - eapply fails_bic_operand; [as_cond Hn | reflexivity | reflexivity|].
    apply fails_bic_first, fails_cond_first, fails_disj_first, fails_conj_first;
      exact Hneg.
Qed.

Lemma prop_connective_without_operand_witness :
  prop ("(" +:+ "p" +:+ ") " +:+ symbol conn_implies)
  = Raise (ValueError _UNEXP_END_OF_STR).
Proof. apply (prop_connective_without_operand conn_implies "p" (Predicate "p")). reflexivity. Defined.

(** ** Blanks behind a text *)

Lemma blank_boundary ws : blank ws = true -> boundary ws = true.
Proof.
  destruct ws as [|c ws]; [reflexivity|]. unfold blank. simpl.
  intros H. apply andb_true_iff in H as [Hc _].
  destruct c as [[] [] [] [] [] [] [] []]; vm_compute in Hc;
    first [discriminate Hc | reflexivity].
Qed.

Section TrailingBlanks.

(** The blanks behind the text, fixed for the section. *)
Variable ws : string.
Hypothesis Hblank : blank ws = true.

Lemma ident_tail_append_blank it parts rest :
  ident_tail it = (parts, rest) ->
  ident_tail (it +:+ ws) = (parts, rest +:+ ws).
Proof.
  revert parts rest. induction it as [|c it IH]; intros parts rest H.
  - simpl in H. simplify_eq. change ("" +:+ ws) with ws.
    apply ident_tail_at_boundary, blank_boundary, Hblank.
  - rewrite append_cons. simpl in H |- *.
    destruct (isalnum c || Ascii.eqb c "_").
    + destruct (ident_tail it) as [p' r'] eqn:E. simplify_eq.
      rewrite (IH _ _ eq_refl). reflexivity.
    + simplify_eq. reflexivity.
Qed.

Lemma _lex_append_blank_yield text tok rest :
  _lex text = Return (Some (tok, rest)) ->
  _lex (text +:+ ws) = Return (Some (tok, rest +:+ ws)).
Proof.
  induction text as [|c it IH]; [discriminate|].
  rewrite append_cons. simpl.
  repeat case_match; intros E; simplify_eq/=; try reflexivity.
  - bind_inv E. rewrite (_lex_accept_append _ _ _ _ Ha). simplify_eq/=. reflexivity.
  - bind_inv E. bind_inv E.
    rewrite (_lex_accept_append _ _ _ _ Ha). simpl.
    rewrite (_lex_accept_append _ _ _ _ Ha0). simplify_eq/=. reflexivity.
  - apply IH. exact E.
  - match goal with
    | H : ident_tail it = _, H' : ident_tail (it +:+ ws) = _ |- _ =>
        rewrite (ident_tail_append_blank _ _ _ H) in H'; simplify_eq
    end.
    reflexivity.
Qed.

Lemma _lex_append_blank_stop text :
  _lex text = Return None -> _lex (text +:+ ws) = Return None.
Proof.
  intros H. rewrite (_lex_append_stop ws text H). apply _lex_blank, Hblank.
Qed.

Lemma padded_advance s1 s2 s1' :
  padded ws s1 s2 -> _advance s1 = Return s1' ->
  exists s2', _advance s2 = Return s2' /\ padded ws s1' s2'.
Proof.
  intros [stream ty v|] Hadv.
  - unfold _advance in *. simpl in *. bind_inv Hadv.
    destruct a as [[[ty' v'] rest]|]; simplify_eq/=.
    + rewrite (_lex_append_blank_yield _ _ _ Ha). simpl.
      eexists; split; [reflexivity | constructor].
    + rewrite (_lex_append_blank_stop _ Ha). simpl.
      eexists; split; [reflexivity | constructor].
  - exists exhausted. split; [reflexivity|].
    unfold _advance in Hadv. simpl in Hadv. simplify_eq. constructor.
Qed.

Lemma padded_at_token s1 s2 ty :
  padded ws s1 s2 -> at_token ty s2 = at_token ty s1.
Proof. intros [stream ty0 v|]; reflexivity. Qed.

Lemma padded_value s1 s2 :
  padded ws s1 s2 -> _current_token_value s2 = _current_token_value s1.
Proof. intros [stream ty0 v|]; reflexivity. Qed.

Ltac pad_call IH H Hf :=
  let p1 := fresh "p" in let s1y := fresh "s1" in let Hc := fresh "Hc" in
  let s2y := fresh "s2" in let Hc2 := fresh "Hc2" in let Hf2 := fresh "Hf" in
  apply bind_Return_inv in H; destruct H as ([p1 s1y] & Hc & H);
  destruct (IH _ _ _ _ Hf Hc) as (s2y & Hc2 & Hf2);
  rewrite Hc2, bind_Return; cbv beta iota in H |- *; clear Hc Hc2.

Ltac pad_advance H Hf :=
  let s1y := fresh "s1" in let Hc := fresh "Hc" in
  let s2y := fresh "s2" in let Hc2 := fresh "Hc2" in let Hf2 := fresh "Hf" in
  apply bind_Return_inv in H; destruct H as (s1y & Hc & H);
  destruct (padded_advance _ _ _ Hf Hc) as (s2y & Hc2 & Hf2);
  rewrite Hc2, bind_Return; clear Hc Hc2.

Ltac pad_test Hf :=
  rewrite (padded_at_token _ _ _ Hf);
  match goal with
  | H : (if at_token ?ty ?s then _ else _) = Return _ |- _ => destruct (at_token ty s)
  end.

Ltac pad_done H :=
  injection H as <- <-; eexists; split; [reflexivity | assumption].

Lemma methods_pad n :
  pads ws (bic n) /\ pads ws (cond n) /\ pads ws (disj n)
  /\ (forall c, pads ws (disj_while n c))
  /\ pads ws (conj n) /\ (forall c, pads ws (conj_while n c))
  /\ pads ws (neg n) /\ pads ws (unit n).
Proof.
  induction n as [|n (IHbic & IHcond & IHdisj & IHdw & IHconj & IHcw & IHneg & IHunit)].
  { repeat split; intros; intros ? ? ? ? ? ?; discriminate. }
  repeat split; [| | |intros c| |intros c| |]; intros s1 s2 p s1' Hf H.
  - rewrite bic_S in H |- *. pad_call IHcond H Hf. pad_test Hf0.
    + pad_advance H Hf0. pad_call IHbic H Hf1. pad_done H.
    + pad_done H.
  - rewrite cond_S in H |- *. pad_call IHdisj H Hf. pad_test Hf0.
    + pad_advance H Hf0. pad_call IHcond H Hf1. pad_done H.
    + pad_done H.
  - rewrite disj_S in H |- *. pad_call IHconj H Hf. eapply IHdw; eassumption.
  - rewrite disj_while_S in H |- *. pad_test Hf.
    + pad_advance H Hf. pad_call IHconj H Hf0. eapply IHdw; eassumption.
    + pad_done H.
  - rewrite conj_S in H |- *. pad_call IHneg H Hf. eapply IHcw; eassumption.
  - rewrite conj_while_S in H |- *. pad_test Hf.
    + pad_advance H Hf. pad_call IHneg H Hf0. eapply IHcw; eassumption.
    + pad_done H.
  - rewrite neg_S in H |- *. pad_test Hf.
    + pad_advance H Hf. pad_call IHneg H Hf0. pad_done H.
    + eapply IHunit; eassumption.
  - rewrite unit_S in H |- *. cbv zeta in H |- *.
    rewrite (padded_value _ _ Hf). pad_test Hf.
    + pad_advance H Hf. pad_done H.
    + pad_test Hf.
      * pad_advance H Hf. pad_call IHbic H Hf0. pad_test Hf1.
        -- pad_advance H Hf1. pad_done H.
        -- exfalso. exact (unit_raise_not_Return _ _ H).
      * exfalso. exact (unit_raise_not_Return _ _ H).
Qed.

End TrailingBlanks.

(** X15.  Blanks behind a text do not change the formula: when [prop]
    returns a formula for a text, it returns the same formula for the text
    followed by blanks. *)
Theorem prop_trailing_blanks text p ws :
  prop text = Return p -> blank ws = true -> prop (text +:+ ws) = Return p.
Proof.
  unfold prop at 1. intros H Hws.
  apply (prop_within_Return (depth_bound text)).
  unfold prop_within, _Parser_init in H |- *.
  bind_inv H. bind_inv Ha.
  destruct a0 as [[[ty v] rest]|]; [|discriminate Ha].
  rewrite (_lex_append_blank_yield ws Hws _ _ _ Ha0). simpl. simplify_eq/=.
  bind_inv H. destruct a as [p' s1'].
  destruct (methods_pad ws Hws (depth_bound text)) as (Hbic & _).
  destruct (Hbic _ _ _ _ (padded_sync ws rest ty v) Ha) as (s2' & -> & _).
  exact H.
Qed.

Lemma prop_trailing_blanks_witness :
  prop ("p & q" +:+ String " " (String "010" "")) =
  Return (And (Predicate "p") (Predicate "q")).
Proof. apply (prop_trailing_blanks "p & q"); reflexivity. Defined.

(** ** Tuples of formulas *)

Lemma length_split_comma text :
  length (split_comma text) = S (count_char "," text).
Proof.
  induction text as [|c text IH]; [reflexivity|].
  simpl. destruct (Ascii.eqb c ","); simpl.
  - rewrite IH. reflexivity.
  - destruct (split_comma text) as [|piece pieces]; simpl in *; lia.
Qed.

Lemma props_of_Return pieces ps :
  props_of pieces = Return ps ->
  Forall2 (fun s p => prop s = Return p) pieces ps.
Proof.
  revert ps. induction pieces as [|s pieces IH]; simpl; intros ps H.
  - simplify_eq. constructor.
  - destruct (prop s) as [p|e|] eqn:Es; try discriminate.
    bind_inv H. simplify_eq. constructor; [exact Es | apply IH; exact Ha].
Qed.

Lemma props_of_Raise pieces e :
  props_of pieces = Raise e ->
  exists pre s post e0,
    pieces = pre ++ s :: post
    /\ Forall (fun s => exists p, prop s = Return p) pre
    /\ prop s = Raise e0 /\ e = genexpr_raise e0.
Proof.
  induction pieces as [|s pieces IH]; simpl; [discriminate|]. intros H.
  destruct (prop s) as [p|e0|] eqn:Es; try discriminate.
  - apply bind_Raise_inv in H as [H|(a & _ & H)]; [|discriminate].
    destruct (IH H) as (pre & s' & post & e0 & -> & Hpre & Hs' & ->).
    exists (s :: pre), s', post, e0. repeat split; try assumption.
    constructor; [eauto | exact Hpre].
  - simplify_eq. exists [], s, pieces, e0. repeat split; try assumption. constructor.
Qed.

(** X16.  A tuple [props] returns holds, in order, the formula [prop]
    returns for each piece between the commas, and so has one element more
    than the text has commas; it is never empty. *)
Theorem props_returns text ps :
  props text = Return ps ->
  Forall2 (fun s p => prop s = Return p) (split_comma text) ps
  /\ length ps = S (count_char "," text).
Proof.
  intros H. apply props_of_Return in H. split; [exact H|].
  rewrite <- (Forall2_length _ _ _ H). apply length_split_comma.
Qed.

Lemma props_returns_witness :
  Forall2 (fun s p => prop s = Return p) (split_comma "p,q | r, ~s")
    [Predicate "p"; Or (Predicate "q") (Predicate "r"); Not (Predicate "s")]
  /\ length [Predicate "p"; Or (Predicate "q") (Predicate "r"); Not (Predicate "s")]
     = S (count_char "," "p,q | r, ~s").
Proof. apply (props_returns "p,q | r, ~s"). reflexivity. Defined.

Lemma prop_StopIteration_blank text :
  prop text = Raise StopIteration -> blank text = true.
Proof.
  intros H. unfold prop, prop_within in H.
  apply bind_Raise_inv in H as [H|(self & _ & H)].
  - unfold _Parser_init in H. apply bind_Raise_inv in H as [H|(a & Ha & H)].
    + apply _lex_module_error in H. inversion H.
    + destruct a as [[[ty v] rest]|]; [discriminate H|].
      apply _lex_None_blank. exact Ha.
  - apply bind_Raise_inv in H as [H|([p s] & _ & H)]; [|discriminate H].
    apply (proj1 (methods_raise _)) in H. inversion H.
Qed.

Lemma props_Raise_cases text e :
  props text = Raise e ->
  e <> StopIteration
  /\ exists pre s post,
      split_comma text = pre ++ s :: post
      /\ Forall (fun s => exists p, prop s = Return p) pre
      /\ ((blank s = true /\ e = RuntimeError "generator raised StopIteration")
          \/ (prop s = Raise e /\ module_error e)).
Proof.
  intros H. apply props_of_Raise in H
    as (pre & s & post & e0 & Hsplit & Hpre & Hs & ->).
  destruct (prop_Raise_cases _ _ Hs) as [->|Hm].
  - split; [discriminate|]. exists pre, s, post. repeat split; try assumption.
    left. split; [|reflexivity]. apply prop_StopIteration_blank. exact Hs.
  - assert (He : genexpr_raise e0 = e0) by (destruct Hm; reflexivity).
    rewrite He. split; [destruct Hm; discriminate|].
    exists pre, s, post. repeat split; try assumption. right. split; assumption.
Qed.

Lemma props_of_within_cases n pieces :
  props_of_within n pieces = OutOfFuel
  \/ props_of_within n pieces = props_of pieces.
Proof.
  induction pieces as [|s pieces IH]; simpl; [right; reflexivity|].
  destruct (prop_within_cases n s) as [->| ->]; [left; reflexivity|].
  destruct (prop s) as [p|e|]; [|right; reflexivity|left; reflexivity].
  destruct IH as [->| ->]; [left|right]; reflexivity.
Qed.

(** X17.  What [props] can raise.  Under any bound on the call depth,
    [props] either runs out of call depth (in the interpreter a
    [RecursionError] on a deeply nested piece; here the outcome
    [OutOfFuel]), or it does what it does with unbounded depth, and then an
    exception it raises comes from the first piece that does not parse, all
    pieces before it parsing: it is the [RuntimeError] of the generator
    expression when that piece is blank, and otherwise the [ValueError] that
    [prop] raises on that piece, with one of the three messages of the
    module; it is never [StopIteration]. *)
Theorem props_within_raises n text :
  props_within n text = OutOfFuel
  \/ (props_within n text = props text
      /\ forall e, props text = Raise e ->
           e <> StopIteration
           /\ exists pre s post,
               split_comma text = pre ++ s :: post
               /\ Forall (fun s => exists p, prop s = Return p) pre
               /\ ((blank s = true
                    /\ e = RuntimeError "generator raised StopIteration")
                   \/ (prop s = Raise e /\ module_error e))).
Proof.
  destruct (props_of_within_cases n (split_comma text)) as [H|H];
    [left; exact H|].
  right. split; [exact H | apply props_Raise_cases].
Qed.

Lemma props_within_raises_witness :
  props_within 20 "p,),q" = Raise (ValueError "unexpected token ')'")
  /\ ValueError "unexpected token ')'" <> StopIteration
  /\ exists pre s post,
      split_comma "p,),q" = pre ++ s :: post
      /\ Forall (fun s => exists p, prop s = Return p) pre
      /\ ((blank s = true
           /\ ValueError "unexpected token ')'"
              = RuntimeError "generator raised StopIteration")
          \/ (prop s = Raise (ValueError "unexpected token ')'")
              /\ module_error (ValueError "unexpected token ')'"))).
Proof.
  split; [reflexivity|].
  destruct (props_within_raises 20 "p,),q") as [H|[_ H]].
  - vm_compute in H. discriminate H.
  - apply H. reflexivity.
Defined.
